(** * corso: incremental OneDrive enumeration, metadata codec and details builder

    A shallow embedding of
    - [src/internal/connector/onedrive/collections.go]
      ([deserializeMap], [deserializeMetadata], [Collections.Get],
      [updateCollectionPaths], [Collections.UpdateCollections], [updatePath],
      [Collection.Add], [Collection.Remove]), and
    - the backup details builder ([FolderEntriesForPath],
      [Builder.AddFoldersForItem], [Builder.Details]).

    Go maps are finite maps ([gmap]); a map passed by reference and mutated in
    place becomes a component of an explicit state.  A [range] loop over a map
    is a fold over [map_to_list]; every statement below is independent of the
    order in which the entries are visited. *)

From stdpp Require Import gmap strings list fin_maps.
From Stdlib Require Import ZArith Lia Ascii.

Open Scope string_scope.
Open Scope list_scope.

(* ===================================================================== *)
(** * Part I: definitions                                                 *)
(* ===================================================================== *)

(** ** The pieces of Go's [strings] package the connector calls *)
Module GoStrings.

(** [strings.HasPrefix(s, prefix)] *)
Definition HasPrefix (s pfx : string) : bool := String.prefix pfx s.

Fixpoint drop (n : nat) (s : string) : string :=
  match n, s with
  | O, _ => s
  | S _, EmptyString => EmptyString
  | S n', String _ s' => drop n' s'
  end.

(** [strings.Replace(s, old, new, 1)]: the leftmost occurrence of [old] in
    [s] is replaced by [new]; [s] is returned as it is when there is none. *)
Fixpoint Replace1 (s old new : string) : string :=
  if String.prefix old s then new +:+ drop (String.length old) s
  else match s with
       | EmptyString => EmptyString
       | String c s' => String c (Replace1 s' old new)
       end.

(** [strings.Split(s, sep)] for a one-character separator. *)
Fixpoint Split (s : string) (sep : Ascii.ascii) : list string :=
  match s with
  | EmptyString => [EmptyString]
  | String c s' =>
      if decide (c = sep) then EmptyString :: Split s' sep
      else match Split s' sep with
           | h :: t => String c h :: t
           | [] => [String c EmptyString]
           end
  end.

End GoStrings.

(** ** Errors *)

(** Go errors: a fresh error of this package ([errors.New], [clues.New],
    [errors.Errorf]), an error handed back by code outside the package (the
    JSON decoder, the context), and a wrapped error ([errors.Wrap],
    [clues.Wrap], [errors.WithStack]). *)
Inductive error : Type :=
| errNew (msg : string)
| errExternal (msg : string)
| errWrap (msg : string) (cause : error).

#[global] Instance error_eq_dec : EqDecision error.
Proof. solve_decision. Defined.

(** [errors.Is(err, target)]: [target] is [err] or one of the causes below it. *)
Fixpoint errors_Is (err target : error) : bool :=
  bool_decide (err = target)
  || match err with
     | errWrap _ cause => errors_Is cause target
     | _ => false
     end.

Inductive result (A : Type) : Type :=
| Ok (a : A)
| Err (e : error).
Arguments Ok {A} a.
Arguments Err {A} e.

(** [var errExistingMapping = errors.New(...)] *)
Definition errExistingMapping : error :=
  errNew "mapping already exists for same drive ID".

(** [maps.Copy(dst, src)]: every entry of [src] is written into [dst]. *)
Definition mapsCopy {V} (dst src : gmap string V) : gmap string V := src ∪ dst.

(** ** Metadata codec: [deserializeMap] and [deserializeMetadata] *)

(** Names of the two metadata files.  They are constants of package [graph],
    which is not part of the sources at hand, and are taken as parameters. *)
Class GraphNames := {
  PreviousPathFileName : string;
  DeltaURLsFileName : string;
}.

(** A metadata item as [deserializeMetadata] sees it: its name ([UUID()]) and
    what [json.NewDecoder(item.ToReader()).Decode(&tmp)] yields for [tmp] of
    each of the two map types ([None]: the decoder returned an error). *)
Record MetadataItem := {
  UUID : string;
  decodeDeltas : option (gmap string string);
  decodeFolders : option (gmap string (gmap string string));
}.

(** What the [select] in [deserializeMetadata] receives: the next item of the
    collection, or the cancellation of the context.  The end of the list is
    the closing of the channel. *)
Inductive StreamEvent :=
| Recv (item : MetadataItem)
| CtxDone.

Definition RestoreCollection := list StreamEvent.

(** [deserializeMap(reader, alreadyFound)].  The map [alreadyFound] is
    mutated in place by the Go code, so the map after the call is returned
    next to the error ([None] is Go's [nil]). *)
Definition deserializeMap {T} (decoded : option (gmap string T))
    (alreadyFound : gmap string T) : gmap string T * option error :=
  match decoded with
  | None =>
      (alreadyFound,
       Some (errWrap "deserializing file contents" (errExternal "json")))
  | Some tmp =>
      let duplicate :=
        existsb (λ k, bool_decide (is_Some (alreadyFound !! k)))
                (map_to_list tmp).*1 in
      if duplicate then (alreadyFound, Some (errWrap "" errExistingMapping))
      else (mapsCopy alreadyFound tmp, None)
  end.

(** The two maps [deserializeMetadata] accumulates. *)
Record MetaState := {
  prevDeltas : gmap string string;
  prevFolders : gmap string (gmap string string);
}.

(** Body of [for k, v := range prevDeltas] (lines 196-208). *)
Definition purgeDelta (st : MetaState) (kv : string * string) : MetaState :=
  let '(k, v) := kv in
  let st1 :=
    if decide (String.length v = 0)
    then {| prevDeltas := delete k (prevDeltas st);
            prevFolders := delete k (prevFolders st) |}
    else st in
  match prevFolders st1 !! k with
  | Some _ => st1
  | None => {| prevDeltas := delete k (prevDeltas st1);
               prevFolders := prevFolders st1 |}
  end.

(** Body of [for k := range prevFolders] (lines 210-214). *)
Definition purgeFolder (st : MetaState) (k : string) : MetaState :=
  match prevDeltas st !! k with
  | Some _ => st
  | None => {| prevDeltas := prevDeltas st;
               prevFolders := delete k (prevFolders st) |}
  end.

(** Removal of partial results, run after every collection.  Each loop
    deletes, in the map it ranges over, only the entry it is visiting, so it
    visits every entry the map had when the loop began. *)
Definition purgePartial (st : MetaState) : MetaState :=
  let st1 := foldl purgeDelta st (map_to_list (prevDeltas st)) in
  foldl purgeFolder st1 (map_to_list (prevFolders st1)).*1.

(** A delta entry is sound when its token is not empty and the drive has a
    folders map: what the purge establishes for every entry it keeps. *)
Definition sound_delta (st : MetaState) (k : string) : Prop :=
  ∀ v, prevDeltas st !! k = Some v →
       v ≠ "" ∧ is_Some (prevFolders st !! k).

Section Metadata.
Context `{GraphNames}.

(** One received item: the [switch item.UUID()] and the error handling
    below it.  [Ok]: the loop goes on with the state given. *)
Definition loadItem (st : MetaState) (item : MetadataItem) : result MetaState :=
  let after (st' : MetaState) (err : option error) : result MetaState :=
    match err with
    | None => Ok st'
    | Some e =>
        if errors_Is e errExistingMapping
        then Err (errWrap ("deserializing metadata file " +:+ UUID item) e)
        else Ok st'
    end in
  if decide (UUID item = PreviousPathFileName) then
    let '(m, err) := deserializeMap (decodeFolders item) (prevFolders st) in
    after {| prevDeltas := prevDeltas st; prevFolders := m |} err
  else if decide (UUID item = DeltaURLsFileName) then
    let '(m, err) := deserializeMap (decodeDeltas item) (prevDeltas st) in
    after {| prevDeltas := m; prevFolders := prevFolders st |} err
  else Ok st.

(** The inner [for breakLoop := false; !breakLoop;] loop over one
    collection's items. *)
Fixpoint loadItems (st : MetaState) (evs : RestoreCollection) : result MetaState :=
  match evs with
  | [] => Ok st
  | CtxDone :: _ =>
      Err (errWrap "deserialzing previous backup metadata" (errExternal "context"))
  | Recv item :: evs' =>
      match loadItem st item with
      | Ok st' => loadItems st' evs'
      | Err e => Err e
      end
  end.

(** The outer [for _, col := range cols] loop. *)
Fixpoint loadCollections (st : MetaState) (cols : list RestoreCollection)
    : result MetaState :=
  match cols with
  | [] => Ok st
  | col :: cols' =>
      match loadItems st col with
      | Ok st' => loadCollections (purgePartial st') cols'
      | Err e => Err e
      end
  end.

Definition deserializeMetadata (cols : list RestoreCollection) : result MetaState :=
  loadCollections {| prevDeltas := ∅; prevFolders := ∅ |} cols.

End Metadata.

(** ** Paths, drive items and collections *)

Inductive driveSource := unknownDriveSource | OneDriveSource | SharePointSource.

#[global] Instance driveSource_eq_dec : EqDecision driveSource.
Proof. solve_decision. Defined.

(** The values of [path.CategoryType] that the connector names. *)
Inductive CategoryType := UnknownCategory | FilesCategory | LibrariesCategory.

#[global] Instance CategoryType_eq_dec : EqDecision CategoryType.
Proof. solve_decision. Defined.

(** [data.CollectionState] *)
Inductive CollectionState := NewState | NotMovedState | MovedState | DeletedState.

(** Package [path] and [data.StateOf] are not part of the sources at hand.
    The operations the connector calls are parameters; a Go [path.Path] that
    may be [nil] is an [option Path], and an operation that returns an error
    returns [None].
    - [PathUpdateParent p prev cur] is [p.UpdateParent(prev, cur)]: [Some p']
      when the call reports [true] and leaves [p] changed to [p'], [None]
      when it reports [false].
    - [ToDataLayerOneDrivePath elems tenant user isItem] is
      [path.Builder{}.Append(elems...).ToDataLayerOneDrivePath(tenant, user, isItem)],
      and likewise for SharePoint.
    - [ToOneDrivePath p] gives the [Folders] of the drive path.
    Paths are values here.  In the Go code [UpdateParent] changes the path
    object it is called on; the only path object with two holders is the
    one [UpdateCollections] gives to a collection made for the drive root,
    as both its full path and its previous path, and nothing below depends
    on it. *)
Class PathOps := {
  Path : Type;
  PathString : Path → string;
  PathCategory : Path → CategoryType;
  PathAppend : Path → string → bool → option Path;
  PathUpdateParent : Path → Path → Path → option Path;
  FromDataLayerPath : string → bool → option Path;
  ToDataLayerOneDrivePath : list string → string → string → bool → option Path;
  ToDataLayerSharePointPath :
    list string → string → string → CategoryType → bool → option Path;
  ToOneDrivePath : Path → option (list string);
  GetDriveFolderPath : Path → option string;
  StateOf : option Path → option Path → CollectionState;
}.

(** [item.GetParentReference()]: its [GetId()] and [GetPath()], each possibly [nil]. *)
Record ItemReference := {
  refId : option string;
  refPath : option string;
}.

(** A [models.DriveItemable] as the connector reads it.  [*item.GetId()] is
    dereferenced without a check throughout, so the id is a plain string;
    the facets ([GetRoot], [GetDeleted], [GetFolder], [GetPackage],
    [GetFile]) are only tested against [nil]. *)
Record DriveItem := {
  itemId : string;
  itemName : option string;
  itemRoot : bool;
  itemParentReference : option ItemReference;
  itemDeleted : bool;
  itemFolder : bool;
  itemPackage : bool;
  itemFile : bool;
}.

#[global] Instance ItemReference_eq_dec : EqDecision ItemReference.
Proof. solve_decision. Defined.
#[global] Instance DriveItem_eq_dec : EqDecision DriveItem.
Proof. solve_decision. Defined.

(** [folderMatcher] *)
Record folderMatcher := {
  IsAny : bool;
  Matches : string → bool;
}.

Definition restrictedDirectory : string := "Site Pages".
Definition MetaFileSuffix : string := ".meta".
Definition DataFileSuffix : string := ".data".

(** [fmt.Sprintf(rootDrivePattern, driveID)] with [rootDrivePattern = "/drives/%s/root:"] *)
Definition rootDrive (driveID : string) : string :=
  "/drives/" +:+ driveID +:+ "/root:".

(** What one pass through the body of a loop does next: go on with the next
    element ([continue], [break] out of the [switch], or the end of the
    body), leave the function with an error, or panic (a method called on a
    [nil] interface value). *)
Inductive flow :=
| Continue
| Return (e : error)
| Panic.

(** Body of the loop [for folderID, p := range paths] of [updatePath]. *)
Definition rewriteEntry (oldPath newPath : string) (paths : gmap string string)
    (entry : string * string) : gmap string string :=
  let '(folderID, p) := entry in
  if GoStrings.HasPrefix p oldPath
  then <[folderID := GoStrings.Replace1 p oldPath newPath]> paths
  else paths.

(** [updatePath(paths, id, newPath)]; the result is the map after the call. *)
Definition updatePath (paths : gmap string string) (id newPath : string)
    : gmap string string :=
  let oldPath := default "" (paths !! id) in
  if decide (String.length oldPath = 0) then <[id := newPath]> paths
  else if decide (oldPath = newPath) then paths
  else foldl (rewriteEntry oldPath newPath) paths (map_to_list paths).

Section OneDrive.
Context `{PathOps}.

(** The fields of [Collection] that enumeration reads or writes. *)
Record Collection := {
  folderPath : option Path;
  driveItems : gmap string DriveItem;
  driveID : string;
  colSource : driveSource;
  prevPath : option Path;
  state : CollectionState;
  doNotMergeItems : bool;
}.

Definition NewCollection (folder prev : option Path) (drive : string)
    (src : driveSource) (doNotMerge : bool) : Collection :=
  {| folderPath := folder;
     driveItems := ∅;
     driveID := drive;
     colSource := src;
     prevPath := prev;
     state := StateOf prev folder;
     doNotMergeItems := doNotMerge |}.

Definition setDriveItems (oc : Collection) (items : gmap string DriveItem)
    : Collection :=
  {| folderPath := folderPath oc;
     driveItems := items;
     driveID := driveID oc;
     colSource := colSource oc;
     prevPath := prevPath oc;
     state := state oc;
     doNotMergeItems := doNotMergeItems oc |}.

(** [oc.Add(item)]: the collection after the call and the returned flag. *)
Definition Add (oc : Collection) (item : DriveItem) : Collection * bool :=
  let found := bool_decide (is_Some (driveItems oc !! itemId item)) in
  (setDriveItems oc (<[itemId item := item]> (driveItems oc)), negb found).

(** [oc.Remove(item)] *)
Definition Remove (oc : Collection) (item : DriveItem) : Collection * bool :=
  let found := bool_decide (is_Some (driveItems oc !! itemId item)) in
  if negb found then (oc, false)
  else (setDriveItems oc (delete (itemId item) (driveItems oc)), true).

Definition IsEmpty (oc : Collection) : bool :=
  bool_decide (size (driveItems oc) = 0).

Definition FullPath (oc : Collection) : option Path := folderPath oc.

Definition SetFullPath (oc : Collection) (curPath : option Path) : Collection :=
  {| folderPath := curPath;
     driveItems := driveItems oc;
     driveID := driveID oc;
     colSource := colSource oc;
     prevPath := prevPath oc;
     state := StateOf (prevPath oc) curPath;
     doNotMergeItems := doNotMergeItems oc |}.

(** The fields of [Collections] that enumeration reads or writes.
    [CollectionMap] holds pointers to [Collection] only, so the type
    assertions to that pointer type in the Go code cannot fail.  The
    counters are Go [int]s that go up by one for an item seen. *)
Record Collections := {
  tenant : string;
  resourceOwner : string;
  source : driveSource;
  matcher : folderMatcher;
  CollectionMap : gmap string Collection;
  NumItems : Z;
  NumFiles : Z;
  NumContainers : Z;
}.

Definition setCollectionMap (c : Collections) (m : gmap string Collection)
    : Collections :=
  {| tenant := tenant c; resourceOwner := resourceOwner c; source := source c;
     matcher := matcher c; CollectionMap := m; NumItems := NumItems c;
     NumFiles := NumFiles c; NumContainers := NumContainers c |}.

Definition addCounts (c : Collections) (items files containers : Z) : Collections :=
  {| tenant := tenant c; resourceOwner := resourceOwner c; source := source c;
     matcher := matcher c; CollectionMap := CollectionMap c;
     NumItems := (NumItems c + items)%Z;
     NumFiles := (NumFiles c + files)%Z;
     NumContainers := (NumContainers c + containers)%Z |}.

(** [GetCanonicalPath(p, tenant, resourceOwner, source)] *)
Definition GetCanonicalPath (p tenant' resourceOwner' : string)
    (src : driveSource) : result Path :=
  let elems := GoStrings.Split p "/"%char in
  match src with
  | OneDriveSource =>
      match ToDataLayerOneDrivePath elems tenant' resourceOwner' false with
      | Some r => Ok r
      | None => Err (errWrap "converting to canonical path" (errExternal "path"))
      end
  | SharePointSource =>
      match ToDataLayerSharePointPath elems tenant' resourceOwner'
              LibrariesCategory false with
      | Some r => Ok r
      | None => Err (errWrap "converting to canonical path" (errExternal "path"))
      end
  | unknownDriveSource => Err (errNew "unrecognized drive data source")
  end.

(** [includePath(ctx, m, folderPath)] *)
Definition includePath (m : folderMatcher) (folder : Path) : bool :=
  match GetDriveFolderPath folder with
  | None => true
  | Some folderPathString =>
      if bool_decide (String.length folderPathString = 0) && IsAny m then true
      else Matches m folderPathString
  end.

(** [shouldSkipDrive(ctx, drivePath, m, driveName)] *)
Definition shouldSkipDrive (drivePath : option Path) (m : folderMatcher)
    (driveName : string) : bool :=
  match drivePath with
  | None => false
  | Some p =>
      negb (includePath m p)
      || (bool_decide (PathCategory p = LibrariesCategory)
          && bool_decide (restrictedDirectory = driveName))
  end.

(** The loop of [updateCollectionPaths] over the other collections: a
    collection without a full path makes [colPath.UpdateParent] a call on a
    [nil] interface, which panics ([None]). *)
Definition rippleParent (id : string) (initialCurPath curPath : Path)
    (acc : option (gmap string Collection)) (ic : string * Collection)
    : option (gmap string Collection) :=
  let '(i, c) := ic in
  match acc with
  | None => None
  | Some cmap =>
      if decide (i = id) then Some cmap
      else match FullPath c with
           | None => None
           | Some colPath =>
               match PathUpdateParent colPath initialCurPath curPath with
               | Some colPath' => Some (<[i := SetFullPath c (Some colPath')]> cmap)
               | None => Some cmap
               end
           end
  end.

(** [updateCollectionPaths(id, cmap, curPath)]: [None] is a panic,
    otherwise the map after the call and the flag [found]. *)
Definition updateCollectionPaths (id : string) (cmap : gmap string Collection)
    (curPath : Path) : option (gmap string Collection * bool) :=
  match cmap !! id with
  | None => Some (cmap, false)
  | Some ocol =>
      match FullPath ocol with
      | None => None
      | Some initialCurPath =>
          if decide (PathString initialCurPath = PathString curPath)
          then Some (cmap, true)
          else
            let cmap1 := <[id := SetFullPath ocol (Some curPath)]> cmap in
            match foldl (rippleParent id initialCurPath curPath)
                        (Some cmap1) (map_to_list cmap1) with
            | Some cmap2 => Some (cmap2, true)
            | None => None
            end
      end
  end.

(** The maps [UpdateCollections] mutates in place: the receiver [c] (its
    [CollectionMap] and counters) and the arguments [newPaths], [excluded]
    and [itemCollection]. *)
Record UpdateState := {
  colls : Collections;
  newPaths : gmap string string;
  excluded : gset string;
  itemCollection : gmap string string;
}.

Definition setColls (st : UpdateState) (c : Collections) : UpdateState :=
  {| colls := c; newPaths := newPaths st; excluded := excluded st;
     itemCollection := itemCollection st |}.

Definition setNewPaths (st : UpdateState) (m : gmap string string) : UpdateState :=
  {| colls := colls st; newPaths := m; excluded := excluded st;
     itemCollection := itemCollection st |}.

Definition setExcluded (st : UpdateState) (s : gset string) : UpdateState :=
  {| colls := colls st; newPaths := newPaths st; excluded := s;
     itemCollection := itemCollection st |}.

Definition setItemCollection (st : UpdateState) (m : gmap string string)
    : UpdateState :=
  {| colls := colls st; newPaths := newPaths st; excluded := excluded st;
     itemCollection := m |}.

(** [c.CollectionMap[id] = col] *)
Definition putCollection (c : Collections) (id : string) (col : Collection)
    : Collections :=
  setCollectionMap c (<[id := col]> (CollectionMap c)).

(** Where the first half of the loop body of [UpdateCollections] (lines
    511-588) leaves an item: the body is over ([Early], with the state and
    what happens next), or the item reaches the [switch] on its type with
    [collectionID], [collectionPath] and [itemPath] computed. *)
Inductive Prelude :=
| Early (st : UpdateState) (f : flow)
| Resolved (collectionID : string) (collectionPath : Path)
           (itemPath : option Path).

Definition errNoParentReference : error := errNew "no parent reference".

Definition resolveItem (driveID' driveName : string)
    (oldPaths : gmap string string) (st : UpdateState) (item : DriveItem)
    : Prelude :=
  let c := colls st in
  if itemRoot item then
    match GetCanonicalPath (rootDrive driveID') (tenant c) (resourceOwner c)
            (source c) with
    | Err e => Early st (Return e)
    | Ok rootPath =>
        Early (setNewPaths st
                 (updatePath (newPaths st) (itemId item) (PathString rootPath)))
              Continue
    end
  else
    match itemParentReference item with
    | None => Early st (Return errNoParentReference)
    | Some ref =>
        match refId ref with
        | None => Early st (Return errNoParentReference)
        | Some collectionID =>
            if negb (itemDeleted item) && bool_decide (refPath ref = None)
            then Early st (Return errNoParentReference)
            else
              let collectionPathStr :=
                if itemDeleted item then oldPaths !! collectionID
                else refPath ref in
              match collectionPathStr with
              | None => Early st Continue
              | Some pathStr =>
                  match GetCanonicalPath pathStr (tenant c) (resourceOwner c)
                          (source c) with
                  | Err e => Early st (Return e)
                  | Ok collectionPath =>
                      let isFolder := itemFolder item || itemPackage item in
                      let appended : result (option Path) :=
                        if itemDeleted item then Ok None
                        else
                          let name := default "" (itemName item) in
                          if decide (String.length name = 0)
                          then Err (errNew "non-deleted item with empty name")
                          else match PathAppend collectionPath name
                                       (negb isFolder) with
                               | Some p => Ok (Some p)
                               | None => Err (errExternal "path")
                               end in
                      match appended with
                      | Err e => Early st (Return e)
                      | Ok itemPath =>
                          if shouldSkipDrive itemPath (matcher c) driveName
                             && shouldSkipDrive (Some collectionPath)
                                  (matcher c) driveName
                          then Early st Continue
                          else Resolved collectionID collectionPath itemPath
                      end
                  end
              end
        end
    end.

(** [path.FromDataLayerPath(oldPaths[id], false)] when [oldPaths] has [id]. *)
Definition previousPathOf (oldPaths : gmap string string) (id : string)
    : result (option Path) :=
  match oldPaths !! id with
  | None => Ok None
  | Some prevPathStr =>
      match FromDataLayerPath prevPathStr false with
      | Some p => Ok (Some p)
      | None => Err (errWrap "invalid previous path" (errExternal "path"))
      end
  end.

(** [case item.GetFolder() != nil, item.GetPackage() != nil:].  An item
    that is not deleted comes with its [itemPath]; the branch for a missing
    one is never taken. *)
Definition folderCase (driveID' : string) (oldPaths : gmap string string)
    (invalidPrevDelta : bool) (st : UpdateState) (item : DriveItem)
    (itemPath : option Path) : UpdateState * flow :=
  let c := colls st in
  let id := itemId item in
  match previousPathOf oldPaths id with
  | Err e => (st, Return e)
  | Ok prevP =>
      if itemDeleted item then
        let st1 := setNewPaths st (delete id (newPaths st)) in
        match prevP with
        | None => (st1, Continue)
        | Some _ =>
            let col := NewCollection None prevP driveID' (source c)
                         invalidPrevDelta in
            (setColls st1 (putCollection c id col), Continue)
        end
      else
        match itemPath with
        | None => (st, Panic)
        | Some ip =>
            let st1 := setNewPaths st (updatePath (newPaths st) id (PathString ip)) in
            match updateCollectionPaths id (CollectionMap c) ip with
            | None => (st1, Panic)
            | Some (cmap, found) =>
                let c1 := setCollectionMap c cmap in
                let c2 :=
                  if found then c1
                  else addCounts
                         (putCollection c1 id
                            (NewCollection (Some ip) prevP driveID' (source c)
                               invalidPrevDelta))
                         0 0 1 in
                if negb (bool_decide (source c = OneDriveSource))
                then (setColls st1 c2, Continue)
                else
                  match CollectionMap c2 !! id with
                  | None => (setColls st1 c2, Continue)
                  | Some col =>
                      let '(col', isNew) := Add col item in
                      let c3 := putCollection c2 id col' in
                      (setColls st1 (if isNew then addCounts c3 1 0 0 else c3),
                       Continue)
                  end
            end
        end
  end.

Definition errPreviousCollectionNotFound : error :=
  errNew "previous collection not found".
Definition errRemovingFromPrevCollection : error :=
  errNew "removing from prev collection".

(** [case item.GetFile() != nil:].  [col] and [pcol] are pointers into
    [c.CollectionMap], so the collection of the parent is read again after
    the removal; it is in the map by then, and the branch for a missing one
    is never taken. *)
Definition fileCase (driveID' : string) (oldPaths : gmap string string)
    (invalidPrevDelta : bool) (st : UpdateState) (item : DriveItem)
    (collectionID : string) (collectionPath : Path) : UpdateState * flow :=
  let id := itemId item in
  let st1 :=
    if negb invalidPrevDelta && itemFile item
    then setExcluded st
           ({[ id +:+ MetaFileSuffix ]} ∪ ({[ id +:+ DataFileSuffix ]} ∪ excluded st))
    else st in
  let c := colls st1 in
  if itemDeleted item then (setColls st1 (addCounts c 1 1 0), Continue)
  else
    match ToOneDrivePath collectionPath with
    | None => (st1, Return (errWrap "invalid path for backup" (errExternal "path")))
    | Some folders =>
        let prevCollectionPath : result (option Path) :=
          if decide (length folders = 0) then Ok (Some collectionPath)
          else previousPathOf oldPaths collectionID in
        match prevCollectionPath with
        | Err e => (st1, Return e)
        | Ok prevCollectionP =>
            let c1 :=
              match CollectionMap c !! collectionID with
              | Some _ => c
              | None =>
                  addCounts
                    (putCollection c collectionID
                       (NewCollection (Some collectionPath) prevCollectionP
                          driveID' (source c) invalidPrevDelta))
                    0 0 1
              end in
            let st2 := setColls st1 c1 in
            let removed : result Collections :=
              match itemCollection st2 !! id with
              | None => Ok c1
              | Some itemColID =>
                  match CollectionMap c1 !! itemColID with
                  | None => Err errPreviousCollectionNotFound
                  | Some pcollection =>
                      let '(pcollection', wasThere) := Remove pcollection item in
                      if negb wasThere then Err errRemovingFromPrevCollection
                      else Ok (putCollection c1 itemColID pcollection')
                  end
              end in
            match removed with
            | Err e => (st2, Return e)
            | Ok c2 =>
                let st3 :=
                  setItemCollection (setColls st2 c2)
                    (<[id := collectionID]> (itemCollection st2)) in
                match CollectionMap c2 !! collectionID with
                | None => (st3, Panic)
                | Some collection =>
                    let '(collection', isNew) := Add collection item in
                    let c3 := putCollection c2 collectionID collection' in
                    (setColls st3 (if isNew then addCounts c3 1 1 0 else c3),
                     Continue)
                end
            end
        end
    end.

(** The [switch] on the type of the item (lines 590-765). *)
Definition classifyItem (driveID' : string) (oldPaths : gmap string string)
    (invalidPrevDelta : bool) (st : UpdateState) (item : DriveItem)
    (collectionID : string) (collectionPath : Path) (itemPath : option Path)
    : UpdateState * flow :=
  if itemFolder item || itemPackage item
  then folderCase driveID' oldPaths invalidPrevDelta st item itemPath
  else if itemFile item
  then fileCase driveID' oldPaths invalidPrevDelta st item collectionID
         collectionPath
  else (st, Return (errNew "item type not supported")).

(** One pass through the loop body of [UpdateCollections]. *)
Definition updateItem (driveID' driveName : string)
    (oldPaths : gmap string string) (invalidPrevDelta : bool)
    (st : UpdateState) (item : DriveItem) : UpdateState * flow :=
  match resolveItem driveID' driveName oldPaths st item with
  | Early st' f => (st', f)
  | Resolved collectionID collectionPath itemPath =>
      classifyItem driveID' oldPaths invalidPrevDelta st item collectionID
        collectionPath itemPath
  end.

(** [c.UpdateCollections(ctx, driveID, driveName, items, oldPaths, newPaths,
    excluded, itemCollection, invalidPrevDelta)]: the state after the call
    and how it ended; [Continue] is the [return nil] after the last item. *)
Fixpoint UpdateCollections (driveID' driveName : string)
    (items : list DriveItem) (oldPaths : gmap string string)
    (invalidPrevDelta : bool) (st : UpdateState) : UpdateState * flow :=
  match items with
  | [] => (st, Continue)
  | item :: items' =>
      match updateItem driveID' driveName oldPaths invalidPrevDelta st item with
      | (st', Continue) =>
          UpdateCollections driveID' driveName items' oldPaths invalidPrevDelta st'
      | stop => stop
      end
  end.

End OneDrive.

(** ** What enumeration keeps of a collection *)
Section Kept.
Context `{PathOps}.

(** [c'] is [c] but for its full path and the state that goes with it. *)
Definition same_but_path (c c' : Collection) : Prop :=
  driveItems c' = driveItems c ∧ driveID c' = driveID c
  ∧ colSource c' = colSource c ∧ prevPath c' = prevPath c
  ∧ doNotMergeItems c' = doNotMergeItems c.

(** The state of a collection is the one [data.StateOf] gives for its
    previous path and its full path, as [NewCollection] and [SetFullPath]
    set it. *)
Definition state_consistent (c : Collection) : Prop :=
  state c = StateOf (prevPath c) (folderPath c).

(** What the loop of [updateCollectionPaths] makes of a collection other
    than the one moved: its full path goes through
    [UpdateParent(initialCurPath, curPath)], and is set again when that
    reports a change. *)
Definition reparented (initialCurPath curPath : Path) (c : Collection)
    : Collection :=
  match FullPath c with
  | Some colPath =>
      match PathUpdateParent colPath initialCurPath curPath with
      | Some colPath' => SetFullPath c (Some colPath')
      | None => c
      end
  | None => c
  end.

End Kept.

(** ** How [UpdateCollections] changes its receiver *)
Section Evolves.
Context `{PathOps}.

(** The writes [UpdateCollections] makes to its receiver, one constructor
    for each: a counter goes up, a collection made by [NewCollection] with
    the receiver's source and the [invalidPrevDelta] of the call is put in
    the map, an item is added to or removed from a collection of the map,
    and [updateCollectionPaths] goes over the map. *)
Inductive evolves (invalidPrevDelta : bool) (c : Collections)
    : Collections → Prop :=
| evolves_refl : evolves invalidPrevDelta c c
| evolves_counts c' items files containers :
    evolves invalidPrevDelta c c' →
    (0 ≤ items)%Z → (0 ≤ files)%Z → (0 ≤ containers)%Z →
    evolves invalidPrevDelta c (addCounts c' items files containers)
| evolves_new c' id folder prev drive :
    evolves invalidPrevDelta c c' →
    evolves invalidPrevDelta c
      (putCollection c' id
         (NewCollection folder prev drive (source c') invalidPrevDelta))
| evolves_add c' id col item col' isNew :
    evolves invalidPrevDelta c c' →
    CollectionMap c' !! id = Some col →
    Add col item = (col', isNew) →
    evolves invalidPrevDelta c (putCollection c' id col')
| evolves_remove c' id col item col' wasThere :
    evolves invalidPrevDelta c c' →
    CollectionMap c' !! id = Some col →
    Remove col item = (col', wasThere) →
    evolves invalidPrevDelta c (putCollection c' id col')
| evolves_paths c' id curPath cmap found :
    evolves invalidPrevDelta c c' →
    updateCollectionPaths id (CollectionMap c') curPath = Some (cmap, found) →
    evolves invalidPrevDelta c (setCollectionMap c' cmap).

End Evolves.

(** ** [Collections.Get] *)

(** A drive as [Get] reads it: [*d.GetId()] and [*d.GetName()]. *)
Record Drive := {
  driveGetId : string;
  driveGetName : string;
}.

(** [DeltaUpdate], the first value [collectItems] returns. *)
Record DeltaUpdate := {
  URL : string;
  Reset : bool;
}.

(** The two entries handed to [graph.MakeMetadataCollection]:
    [graph.PreviousPathFileName] with [folderPaths] and
    [graph.DeltaURLsFileName] with [deltaURLs]. *)
Record MetadataEntries := {
  persistedPaths : gmap string (gmap string string);
  persistedDelta : gmap string string;
}.

(** How a call ends: it returns, with a value or an error, or it panics. *)
Inductive outcome (A : Type) : Type :=
| Returned (r : result A)
| Panicked.
Arguments Returned {A} r.
Arguments Panicked {A}.

Section Get.
Context `{GraphNames} `{PathOps}.

(** What [Get] calls and is not part of the sources at hand, taken as
    parameters:
    - [listDrives]: [c.drivePagerFunc] followed by [drives(ctx, pager, retry)];
    - [collectItems c driveID driveName oldPaths prevDelta]: the call of
      [collectItems] with [c.UpdateCollections] as its collector, which may
      change [c]; it gives [c] after the call and the returned
      [(delta, paths, excluded)] or error;
    - [metadataCollectionError]: the error of [graph.MakeMetadataCollection]
      on the two entries, if any. *)
Record Backend := {
  listDrives : result (list Drive);
  collectItems :
    Collections → string → string → gmap string string → string →
    Collections * result (DeltaUpdate * gmap string string * gset string);
  metadataCollectionError : MetadataEntries → option error;
}.

(** The local maps of [Get] and the receiver. *)
Record GetState := {
  getColls : Collections;
  deltaURLs : gmap string string;
  folderPaths : gmap string (gmap string string);
  excludedItems : gset string;
}.

(** Body of [for _, p := range c.CollectionMap], which adds
    [p.FullPath().String()] to [modifiedPaths]; [None] when the collection
    has no full path: [String()] is then called on a [nil] interface, which
    panics. *)
Definition addModifiedPath (acc : option (gset string))
    (ip : string * Collection) : option (gset string) :=
  match acc, FullPath ip.2 with
  | Some s, Some fp => Some ({[ PathString fp ]} ∪ s)
  | _, _ => None
  end.

(** The set [modifiedPaths] of lines 362-365. *)
Definition modifiedPathsOf (cmap : gmap string Collection) : option (gset string) :=
  foldl addModifiedPath (Some ∅) (map_to_list cmap).

(** Body of [for i, p := range oldPaths] (lines 367-400).  [delete(paths, i)]
    is reached only when [paths] has no [i] and changes nothing. *)
Definition markDeleted (drive : string) (src : driveSource)
    (paths : gmap string string) (modifiedPaths : gset string)
    (acc : result (gmap string Collection)) (ip : string * string)
    : result (gmap string Collection) :=
  let '(i, p) := ip in
  match acc with
  | Err e => Err e
  | Ok cmap =>
      if bool_decide (is_Some (paths !! i)) then Ok cmap
      else if bool_decide (p ∈ modifiedPaths) then Ok cmap
      else match FromDataLayerPath p false with
           | None => Err (errWrap "invalid previous path" (errExternal "path"))
           | Some prevP =>
               Ok (<[i := NewCollection None (Some prevP) drive src true]> cmap)
           end
  end.

(** Body of [for _, d := range drives] (lines 292-401). *)
Definition getDrive (be : Backend) (meta : MetaState) (st : GetState)
    (d : Drive) : GetState * flow :=
  let drive := driveGetId d in
  let prevDelta := default "" (prevDeltas meta !! drive) in
  let oldPaths := default ∅ (prevFolders meta !! drive) in
  match collectItems be (getColls st) drive (driveGetName d) oldPaths prevDelta with
  | (c1, Err e) =>
      ({| getColls := c1; deltaURLs := deltaURLs st;
          folderPaths := folderPaths st; excludedItems := excludedItems st |},
       Return e)
  | (c1, Ok (delta, paths, excluded')) =>
      let deltaURLs1 :=
        if bool_decide (0 < String.length (URL delta))
        then <[drive := URL delta]> (deltaURLs st)
        else deltaURLs st in
      let folderPaths1 := <[drive := mapsCopy ∅ paths]> (folderPaths st) in
      if negb (Reset delta) then
        ({| getColls := c1; deltaURLs := deltaURLs1; folderPaths := folderPaths1;
            excludedItems := excluded' ∪ excludedItems st |},
         Continue)
      else
        let st1 := {| getColls := c1; deltaURLs := deltaURLs1;
                      folderPaths := folderPaths1;
                      excludedItems := excludedItems st |} in
        match modifiedPathsOf (CollectionMap c1) with
        | None => (st1, Panic)
        | Some modifiedPaths =>
            match foldl (markDeleted drive (source c1) paths modifiedPaths)
                        (Ok (CollectionMap c1)) (map_to_list oldPaths) with
            | Err e => (st1, Return e)
            | Ok cmap =>
                ({| getColls := setCollectionMap c1 cmap;
                    deltaURLs := deltaURLs1; folderPaths := folderPaths1;
                    excludedItems := excludedItems st |},
                 Continue)
            end
        end
  end.

(** The loop [for _, d := range drives]. *)
Fixpoint getDrives (be : Backend) (meta : MetaState) (st : GetState)
    (drives : list Drive) : GetState * flow :=
  match drives with
  | [] => (st, Continue)
  | d :: drives' =>
      match getDrive be meta st d with
      | (st', Continue) => getDrives be meta st' drives'
      | stop => stop
      end
  end.

(** Invariant of the loop over the drives: the drive ids in [folderPaths]
    are those of the drives gone through, every drive id in [deltaURLs] is
    one of them, and no recorded delta URL is empty. *)
Definition metadata_inv (seen : list string) (st : GetState) : Prop :=
  (∀ d, d ∈ dom (folderPaths st) ↔ d ∈ seen)
  ∧ dom (deltaURLs st) ⊆ dom (folderPaths st)
  ∧ (∀ d u, deltaURLs st !! d = Some u → u ≠ "").

(** An element of the slice of [data.BackupCollection] that [Get] returns. *)
Inductive BackupCollection :=
| DriveCollection (oc : Collection)
| MetadataCollection (entries : MetadataEntries).

(** [c.Get(ctx, prevMetadata)]: the receiver after the call, and the
    collections and excluded items returned. *)
Definition Get (be : Backend) (c : Collections)
    (prevMetadata : list RestoreCollection)
    : Collections * outcome (list BackupCollection * gset string) :=
  match deserializeMetadata prevMetadata with
  | Err e => (c, Returned (Err e))
  | Ok meta =>
      match listDrives be with
      | Err e => (c, Returned (Err e))
      | Ok drives =>
          let st0 := {| getColls := c; deltaURLs := ∅; folderPaths := ∅;
                        excludedItems := ∅ |} in
          match getDrives be meta st0 drives with
          | (st, Panic) => (getColls st, Panicked)
          | (st, Return e) => (getColls st, Returned (Err e))
          | (st, Continue) =>
              let collections : list BackupCollection :=
                DriveCollection <$> (map_to_list (CollectionMap (getColls st))).*2 in
              let entries := {| persistedPaths := folderPaths st;
                                persistedDelta := deltaURLs st |} in
              let collections' :=
                match metadataCollectionError be entries with
                | Some _ => collections
                | None => collections ++ [MetadataCollection entries]
                end in
              (getColls st, Returned (Ok (collections', excludedItems st)))
          end
      end
  end.

End Get.

(** ** Backup details: [FolderEntriesForPath], [Builder.AddFoldersForItem],
       [Builder.Details] *)
Module details.

(** Go's [int64]: the value of [z] after wrap-around. *)
Definition wrap64 (z : Z) : Z := ((z + 2 ^ 63) mod 2 ^ 64 - 2 ^ 63)%Z.

(** A [time.Time] as its distance from the zero value [time.Time{}], which
    is [0]; an instant before the zero value is negative. *)
Definition Time := Z.
Definition zeroTime : Time := 0%Z.
(** [t.Before(u)] *)
Definition Before (t u : Time) : bool := (t <? u)%Z.

(** Modelled from the spec: [path.Builder] is not part of the sources at
    hand.  A builder is the list of its elements ([Elements()]); [Dir()]
    drops the last element, [LastElem()] is the last element or the empty
    string, [PopFront()] drops the first element.  [String()] and
    [ShortRef()] (the spec's "stable hash of a repo path") are parameters. *)
Definition PathBuilder := list string.
Definition Elements (pb : PathBuilder) : list string := pb.
Definition Dir (pb : PathBuilder) : PathBuilder := removelast pb.
Definition LastElem (pb : PathBuilder) : string := default "" (last pb).
Definition PopFront (pb : PathBuilder) : PathBuilder := tail pb.

Class BuilderOps := {
  BuilderString : PathBuilder → string;
  BuilderShortRef : PathBuilder → string;
}.

Inductive ItemType :=
| UnknownType
| ExchangeContact | ExchangeEvent | ExchangeMail
| SharePointItem
| OneDriveItem
| FolderItem.

Record FolderInfo := {
  folderItemType : ItemType;
  DisplayName : string;
  folderModified : Time;
  folderSize : Z;
}.

(** Of the service specific infos, the fields that [size()], [Modified()]
    and [infoType()] read. *)
Record ExchangeInfo := {
  exchangeItemType : ItemType;
  exchangeModified : Time;
  exchangeSize : Z;
}.

Record SharePointInfo := {
  sharePointItemType : ItemType;
  sharePointModified : Time;
  sharePointSize : Z;
}.

Record OneDriveInfo := {
  oneDriveItemType : ItemType;
  oneDriveModified : Time;
  oneDriveSize : Z;
}.

(** [ItemInfo]: four pointers, each possibly [nil]. *)
Record ItemInfo := {
  Folder : option FolderInfo;
  Exchange : option ExchangeInfo;
  SharePoint : option SharePointInfo;
  OneDrive : option OneDriveInfo;
}.

(** [i.size()] *)
Definition size (i : ItemInfo) : Z :=
  match Exchange i, OneDrive i, SharePoint i, Folder i with
  | Some e, _, _, _ => exchangeSize e
  | None, Some o, _, _ => oneDriveSize o
  | None, None, Some s, _ => sharePointSize s
  | None, None, None, Some f => folderSize f
  | None, None, None, None => 0%Z
  end.

(** [i.Modified()] *)
Definition Modified (i : ItemInfo) : Time :=
  match Exchange i, OneDrive i, SharePoint i, Folder i with
  | Some e, _, _, _ => exchangeModified e
  | None, Some o, _, _ => oneDriveModified o
  | None, None, Some s, _ => sharePointModified s
  | None, None, None, Some f => folderModified f
  | None, None, None, None => zeroTime
  end.

Record folderEntry := {
  RepoRef : string;
  ShortRef : string;
  ParentRef : string;
  LocationRef : string;
  Updated : bool;
  Info : ItemInfo;
}.

Record DetailsEntry := {
  entryRepoRef : string;
  entryShortRef : string;
  entryParentRef : string;
  entryLocationRef : string;
  entryUpdated : bool;
  entryItemInfo : ItemInfo;
}.

(** [Builder]: [d.Entries] and [knownFolders].  A [nil] map reads like an
    empty one and [AddFoldersForItem] allocates it before its first write,
    so [knownFolders] is a map throughout. *)
Record Builder := {
  Entries : list DetailsEntry;
  knownFolders : gmap string folderEntry;
}.

Definition emptyBuilder : Builder := {| Entries := []; knownFolders := ∅ |}.

(** [d.add(...)] *)
Definition add (ents : list DetailsEntry)
    (repoRef shortRef parentRef locationRef : string) (updated : bool)
    (info : ItemInfo) : list DetailsEntry :=
  ents ++ [ {| entryRepoRef := repoRef; entryShortRef := shortRef;
               entryParentRef := parentRef; entryLocationRef := locationRef;
               entryUpdated := updated; entryItemInfo := info |} ].

(** [d.addFolder(folder)] *)
Definition addFolder (ents : list DetailsEntry) (folder : folderEntry)
    : list DetailsEntry :=
  ents ++ [ {| entryRepoRef := RepoRef folder; entryShortRef := ShortRef folder;
               entryParentRef := ParentRef folder; entryLocationRef := "";
               entryUpdated := Updated folder; entryItemInfo := Info folder |} ].

(** [b.Add(...)] *)
Definition Add (b : Builder)
    (repoRef shortRef parentRef locationRef : string) (updated : bool)
    (info : ItemInfo) : Builder :=
  {| Entries := add (Entries b) repoRef shortRef parentRef locationRef updated info;
     knownFolders := knownFolders b |}.

(** [b.Details()]: the cached folder entries are written to the details,
    which are returned; the builder keeps them. *)
Definition Details (b : Builder) : Builder :=
  {| Entries := foldl addFolder (Entries b) (map_to_list (knownFolders b)).*2;
     knownFolders := knownFolders b |}.

(** The update of one folder entry in [AddFoldersForItem] (lines 245-258):
    the size grows by the item's size, the modified time moves forward to
    the item's, and [Updated] is set when the item was updated.
    [folder.Info.Folder] is a pointer: the update writes through it and
    panics ([None]) when it is [nil]. *)
Definition updateFolder (itemInfo : ItemInfo) (updated : bool)
    (folder : folderEntry) : option folderEntry :=
  match Folder (Info folder) with
  | None => None
  | Some fi =>
      let itemModified := Modified itemInfo in
      let size1 := wrap64 (folderSize fi + size itemInfo) in
      let modified1 :=
        if Before (folderModified fi) itemModified then itemModified
        else folderModified fi in
      Some {| RepoRef := RepoRef folder; ShortRef := ShortRef folder;
              ParentRef := ParentRef folder;
              LocationRef := LocationRef folder;
              Updated := if updated then true else Updated folder;
              Info := {| Folder := Some {| folderItemType := folderItemType fi;
                                           DisplayName := DisplayName fi;
                                           folderModified := modified1;
                                           folderSize := size1 |};
                         Exchange := Exchange (Info folder);
                         SharePoint := SharePoint (Info folder);
                         OneDrive := OneDrive (Info folder) |} |}
  end.

(** Body of the loop of [AddFoldersForItem]: a folder seen before is taken
    from [knownFolders], updated, and written back.  An entry of
    [knownFolders] is the only holder of its [FolderInfo], so the write
    through the pointer is an update of that entry. *)
Definition addFolderForItem (itemInfo : ItemInfo) (updated : bool)
    (known : option (gmap string folderEntry)) (folder : folderEntry)
    : option (gmap string folderEntry) :=
  match known with
  | None => None
  | Some kf =>
      let folder1 :=
        match kf !! ShortRef folder with
        | Some existing => existing
        | None => folder
        end in
      match updateFolder itemInfo updated folder1 with
      | None => None
      | Some folder2 => Some (<[ShortRef folder2 := folder2]> kf)
      end
  end.

(** [b.AddFoldersForItem(folders, itemInfo, updated)]; [None] is a panic. *)
Definition AddFoldersForItem (b : Builder) (folders : list folderEntry)
    (itemInfo : ItemInfo) (updated : bool) : option Builder :=
  match foldl (addFolderForItem itemInfo updated) (Some (knownFolders b)) folders with
  | None => None
  | Some kf => Some {| Entries := Entries b; knownFolders := kf |}
  end.

(** [locationRefOf(pb)] *)
Definition locationRefOf (pb : option PathBuilder) : option PathBuilder :=
  match pb with
  | None => None
  | Some pb => Some (PopFront (PopFront (PopFront (PopFront pb))))
  end.

Section FolderEntries.
Context `{BuilderOps}.

(** The loop [for len(parent.Elements()) > 0] of [FolderEntriesForPath],
    run for at most [fuel] rounds. *)
Fixpoint folderEntriesLoop (fuel : nat) (parent : PathBuilder)
    (lfs : option PathBuilder) : list folderEntry :=
  match fuel with
  | O => []
  | S fuel' =>
      if bool_decide (0 < length (Elements parent)) then
        let nextParent := Dir parent in
        let lr := match lfs with Some l => BuilderString l | None => "" end in
        let dn :=
          match lfs with
          | Some l =>
              if bool_decide (0 < length (Elements l)) then LastElem l
              else LastElem parent
          | None => LastElem parent
          end in
        {| RepoRef := BuilderString parent;
           ShortRef := BuilderShortRef parent;
           ParentRef := BuilderShortRef nextParent;
           LocationRef := lr;
           Updated := false;
           Info := {| Folder := Some {| folderItemType := FolderItem;
                                        DisplayName := dn;
                                        folderModified := zeroTime;
                                        folderSize := 0 |};
                      Exchange := None; SharePoint := None;
                      OneDrive := None |} |}
        :: folderEntriesLoop fuel' nextParent
             (match lfs with Some l => Some (Dir l) | None => None end)
      else []
  end.

(** [FolderEntriesForPath(parent, location)].  Every round removes one
    element of [parent], so [length parent] rounds reach the end of the
    loop ([folderEntriesLoop_fuel] below). *)
Definition FolderEntriesForPath (parent : PathBuilder)
    (location : option PathBuilder) : list folderEntry :=
  folderEntriesLoop (length parent) parent (locationRefOf location).




(** The folders a path implies: the path and its [Dir()]s down to a single
    element, as [FolderEntriesForPath] visits them. *)
Fixpoint ancestorsLoop (fuel : nat) (parent : PathBuilder) : list PathBuilder :=
  match fuel with
  | O => []
  | S fuel' =>
      if bool_decide (0 < length (Elements parent))
      then parent :: ancestorsLoop fuel' (Dir parent)
      else []
  end.

Definition ancestors (parent : PathBuilder) : list PathBuilder :=
  ancestorsLoop (length parent) parent.








(** A map of known folders is well keyed when every entry sits under its own
    [ShortRef] and has a folder info. *)
Definition well_keyed (kf : gmap string folderEntry) : Prop :=
  ∀ r e, kf !! r = Some e → ShortRef e = r ∧ is_Some (Folder (Info e)).

(** [DetailsEntry] that [addFolder] appends for a folder entry. *)
Definition folderDetails (folder : folderEntry) : DetailsEntry :=
  {| entryRepoRef := RepoRef folder; entryShortRef := ShortRef folder;
     entryParentRef := ParentRef folder; entryLocationRef := "";
     entryUpdated := Updated folder; entryItemInfo := Info folder |}.



End FolderEntries.

End details.

(** ** Sample instances of the parameters

    Concrete file names, and a sample metadata load, on which the
    statements of Part II are evaluated. *)
Module Sample.

Definition names : GraphNames :=
  {| PreviousPathFileName := "previouspath"; DeltaURLsFileName := "deltaurls" |}.

(** A delta file and a paths file for drive ["d1"]. *)
Definition deltaFile (token : string) : MetadataItem :=
  {| UUID := "deltaurls";
     decodeDeltas := Some {[ "d1" := token ]};
     decodeFolders := None |}.

Definition pathsFile : MetadataItem :=
  {| UUID := "previouspath";
     decodeDeltas := None;
     decodeFolders := Some {[ "d1" := {[ "folder1" := "t/onedrive/u/files/drives/d1/root:/a" ]} ]} |}.

(** Paths as plain strings: a stand-in for package [path], with the
    canonical form [tenant/onedrive/user/files/drives/<id>/root:/...]. *)
Definition joinElems (elems : list string) : string :=
  foldr (λ e acc, if decide (e = "") then acc else "/" +:+ e +:+ acc) "" elems.

Definition stateOf (prev cur : option string) : CollectionState :=
  match cur, prev with
  | None, _ => DeletedState
  | Some _, None => NewState
  | Some c, Some p => if decide (c = p) then NotMovedState else MovedState
  end.

Definition stringPaths : PathOps :=
  {| Path := string;
     PathString := λ p, p;
     PathCategory := λ _, FilesCategory;
     PathAppend := λ p name _, Some (p +:+ "/" +:+ name);
     PathUpdateParent := λ p prev cur,
       if GoStrings.HasPrefix p (prev +:+ "/")
       then Some (cur +:+ GoStrings.drop (String.length prev) p)
       else None;
     FromDataLayerPath := λ s _, if decide (s = "") then None else Some s;
     ToDataLayerOneDrivePath := λ elems t u _,
       Some (t +:+ "/onedrive/" +:+ u +:+ "/files" +:+ joinElems elems);
     ToDataLayerSharePointPath := λ elems t u _ _,
       Some (t +:+ "/sharepoint/" +:+ u +:+ "/libraries" +:+ joinElems elems);
     ToOneDrivePath := λ p, Some (drop 7 (GoStrings.Split p "/"));
     GetDriveFolderPath := λ p, Some (joinElems (drop 7 (GoStrings.Split p "/")));
     StateOf := stateOf |}.

Definition anyFolder : folderMatcher := {| IsAny := true; Matches := λ _, true |}.

(** A OneDrive enumeration for user ["u"] of tenant ["t"]. *)
Definition colls0 (cmap : gmap string (@Collection stringPaths))
    : @Collections stringPaths :=
  {| tenant := "t"; resourceOwner := "u"; source := OneDriveSource;
     matcher := anyFolder; CollectionMap := cmap;
     NumItems := 0; NumFiles := 0; NumContainers := 0 |}.

Definition mkFolder (id name parentId parentPath : string) : DriveItem :=
  {| itemId := id; itemName := Some name; itemRoot := false;
     itemParentReference := Some {| refId := Some parentId; refPath := Some parentPath |};
     itemDeleted := false; itemFolder := true; itemPackage := false;
     itemFile := false |}.

Definition mkFile (id name parentId parentPath : string) : DriveItem :=
  {| itemId := id; itemName := Some name; itemRoot := false;
     itemParentReference := Some {| refId := Some parentId; refPath := Some parentPath |};
     itemDeleted := false; itemFolder := false; itemPackage := false;
     itemFile := true |}.

Definition rootPath : string := "t/onedrive/u/files/drives/d1/root:".

(** A collection at [folder] holding the given items. *)
Definition collectionAt (folder : string) (items : list DriveItem)
    : @Collection stringPaths :=
  @setDriveItems stringPaths
    (@NewCollection stringPaths (Some folder) (Some folder) "d1" OneDriveSource false)
    (list_to_map ((λ i, (itemId i, i)) <$> items)).

(** Folders [A], [A/B] and [C] under the root of drive ["d1"], as the
    previous backup recorded them. *)
Definition knownPaths : gmap string string :=
  {[ "A" := rootPath +:+ "/A";
     "B" := rootPath +:+ "/A/B";
     "C" := rootPath +:+ "/C" ]}.

(** The start of an incremental enumeration of drive ["d1"]. *)
Definition incremental : @UpdateState stringPaths :=
  {| colls := colls0 ∅; newPaths := knownPaths; excluded := ∅;
     itemCollection := ∅ |}.

(** Folder [A] comes back renamed to [A2]. *)
Definition renamedA : DriveItem := mkFolder "A" "A2" "root" "/drives/d1/root:".

(** File [f1] changed in folder [A]. *)
Definition changedFile : DriveItem := mkFile "f1" "report" "A" "/drives/d1/root:/A".


Definition seenInA : @UpdateState stringPaths :=
  {| colls := colls0 {[ "A" := collectionAt (rootPath +:+ "/A") [changedFile];
                        "C" := collectionAt (rootPath +:+ "/C") [] ]};
     newPaths := knownPaths;
     excluded := {[ "f1.data"; "f1.meta" ]};
     itemCollection := {[ "f1" := "A" ]} |}.

(** The metadata of a previous backup of drive ["d1"]: delta token
    ["t0"] and one folder. *)
Definition previousMetadata : list RestoreCollection :=
  [ [Recv (deltaFile "t0"); Recv pathsFile] ].


Definition drive1 : Drive := {| driveGetId := "d1"; driveGetName := "drive" |}.

(** A backend with the one drive ["d1"], whose enumeration adds no
    collection and reports the delta update and new paths given. *)
Definition backend (delta : DeltaUpdate) (paths : gmap string string)
    : @Backend stringPaths :=
  {| listDrives := Ok [drive1];
     collectItems := λ c _ _ _ _, (c, Ok (delta, paths, ∅));
     metadataCollectionError := λ _, None |}.


(** Builders printed with slashes; the short reference of a path is its
    printed form behind a hash sign. *)
Definition slashRefs : details.BuilderOps :=
  {| details.BuilderString := λ pb, String.concat "/" pb;
     details.BuilderShortRef := λ pb, "#" +:+ String.concat "/" pb |}.

Definition mailInfo (bytes : Z) (modified : details.Time) : details.ItemInfo :=
  {| details.Folder := None;
     details.Exchange :=
       Some {| details.exchangeItemType := details.ExchangeMail;
               details.exchangeModified := modified;
               details.exchangeSize := bytes |};
     details.SharePoint := None;
     details.OneDrive := None |}.


(** Collections for folders [A] and [A/B], without items. *)
Definition nested : gmap string (@Collection stringPaths) :=
  {[ "A" := collectionAt (rootPath +:+ "/A") [];
     "B" := collectionAt (rootPath +:+ "/A/B") [] ]}.

(** The paths of the previous backup with the drive root among them. *)
Definition knownWithRoot : gmap string string :=
  <[ "root" := rootPath ]> knownPaths.

(** The delete event for an item. *)
Definition deleted (item : DriveItem) : DriveItem :=
  {| itemId := itemId item; itemName := itemName item; itemRoot := itemRoot item;
     itemParentReference := itemParentReference item;
     itemDeleted := true; itemFolder := itemFolder item;
     itemPackage := itemPackage item; itemFile := itemFile item |}.

(** The item of the drive root, and an item without a parent reference. *)
Definition rootItem : DriveItem :=
  {| itemId := "root"; itemName := Some "root"; itemRoot := true;
     itemParentReference := None; itemDeleted := false; itemFolder := true;
     itemPackage := false; itemFile := false |}.

Definition orphan : DriveItem :=
  {| itemId := "x"; itemName := Some "x"; itemRoot := false;
     itemParentReference := None; itemDeleted := false; itemFolder := false;
     itemPackage := false; itemFile := true |}.

(** A folder entry as [FolderEntriesForPath] makes them, and one without a
    folder info. *)
Definition folderNamed (repoRef shortRef : string) : details.folderEntry :=
  {| details.RepoRef := repoRef; details.ShortRef := shortRef;
     details.ParentRef := ""; details.LocationRef := "";
     details.Updated := false;
     details.Info :=
       {| details.Folder :=
            Some {| details.folderItemType := details.FolderItem;
                    details.DisplayName := repoRef;
                    details.folderModified := details.zeroTime;
                    details.folderSize := 0 |};
          details.Exchange := None; details.SharePoint := None;
          details.OneDrive := None |} |}.

Definition bareFolder (shortRef : string) : details.folderEntry :=
  {| details.RepoRef := ""; details.ShortRef := shortRef;
     details.ParentRef := ""; details.LocationRef := "";
     details.Updated := false;
     details.Info :=
       {| details.Folder := None; details.Exchange := None;
          details.SharePoint := None; details.OneDrive := None |} |}.


End Sample.

(* ===================================================================== *)
(** * Part II: properties                                                 *)
(* ===================================================================== *)

(** ** Go strings *)
Section GoStringsFacts.

Lemma prefix_app_drop (p s : string) :
  String.prefix p s = true → s = p +:+ GoStrings.drop (String.length p) s.
Proof.
  revert s. induction p as [|c p IH]; intros [|d s]; simpl; try done.
  destruct (Ascii.ascii_dec c d) as [->|]; [|done].
  intros Hp.
  change (String d s = String d (p +:+ GoStrings.drop (String.length p) s)).
  f_equal. by apply IH.
Qed.

Lemma prefix_app (p s : string) : String.prefix p (p +:+ s) = true.
Proof.
  induction p as [|c p IH]; [by destruct s|].
  change (String.prefix (String c p) (String c (p +:+ s)) = true).
  simpl. by destruct (Ascii.ascii_dec c c).
Qed.

(** On a string that starts with [old], [strings.Replace(s, old, new, 1)]
    swaps that prefix for [new]. *)
Lemma Replace1_prefix (s old new : string) :
  GoStrings.HasPrefix s old = true →
  GoStrings.Replace1 s old new = new +:+ GoStrings.drop (String.length old) s.
Proof.
  unfold GoStrings.HasPrefix. intros Hp.
  assert (Hunfold : GoStrings.Replace1 s old new =
            if String.prefix old s
            then new +:+ GoStrings.drop (String.length old) s
            else match s with
                 | EmptyString => EmptyString
                 | String c s' => String c (GoStrings.Replace1 s' old new)
                 end) by (by destruct s).
  by rewrite Hunfold, Hp.
Qed.

Example Split_leading_slash :
  GoStrings.Split "/drives/d1/root:" "/"%char = [""; "drives"; "d1"; "root:"].
Proof. reflexivity. Qed.

Example Split_empty : GoStrings.Split "" "/"%char = [""].
Proof. reflexivity. Qed.

Example Replace1_leftmost : GoStrings.Replace1 "xabab" "ab" "Q" = "xQab".
Proof. reflexivity. Qed.

Example Replace1_absent : GoStrings.Replace1 "abc" "zz" "X" = "abc".
Proof. reflexivity. Qed.

End GoStringsFacts.

(** ** Metadata codec *)
Section MetadataFacts.
Context `{GraphNames}.

Lemma errors_Is_refl (e : error) : errors_Is e e = true.
Proof. destruct e; simpl; by rewrite bool_decide_eq_true_2. Qed.

Lemma existsb_keys_spec {T} (tmp alreadyFound : gmap string T) :
  existsb (λ k, bool_decide (is_Some (alreadyFound !! k))) (map_to_list tmp).*1 = true
  ↔ ∃ k, is_Some (tmp !! k) ∧ is_Some (alreadyFound !! k).
Proof.
  rewrite existsb_exists. split.
  - intros (k & Hin & Hk). exists k. split; [|by apply bool_decide_eq_true in Hk].
    apply list_elem_of_In, list_elem_of_fmap in Hin as ([k' v] & -> & Hin).
    apply elem_of_map_to_list in Hin. by exists v.
  - intros (k & [v Hv] & Hk). exists k. split; [|by apply bool_decide_eq_true].
    apply list_elem_of_In, list_elem_of_fmap. exists (k, v).
    split; [done|]. by apply elem_of_map_to_list.
Qed.

(** What [deserializeMap] returns, case by case. *)
Lemma deserializeMap_cases {T} (decoded : option (gmap string T))
    (alreadyFound : gmap string T) :
  (decoded = None ∧
   deserializeMap decoded alreadyFound =
     (alreadyFound,
      Some (errWrap "deserializing file contents" (errExternal "json"))))
  ∨ (∃ tmp, decoded = Some tmp ∧
       (∃ k, is_Some (tmp !! k) ∧ is_Some (alreadyFound !! k)) ∧
       deserializeMap decoded alreadyFound =
         (alreadyFound, Some (errWrap "" errExistingMapping)))
  ∨ (∃ tmp, decoded = Some tmp ∧
       (∀ k, is_Some (tmp !! k) → alreadyFound !! k = None) ∧
       deserializeMap decoded alreadyFound = (mapsCopy alreadyFound tmp, None)).
Proof.
  destruct decoded as [tmp|]; [right|by left].
  unfold deserializeMap.
  destruct (existsb _ _) eqn:Hdup.
  - left. exists tmp. split; [done|]. split; [|done].
    by apply existsb_keys_spec.
  - right. exists tmp. split; [done|]. split; [|done].
    intros k Hk. destruct (alreadyFound !! k) eqn:Hk'; [|done].
    assert (existsb (λ k, bool_decide (is_Some (alreadyFound !! k)))
              (map_to_list tmp).*1 = true) as Hex; [|congruence].
    apply existsb_keys_spec. exists k. by rewrite Hk'.
Qed.

End MetadataFacts.

(** *** The purge of partial results (lines 194-214) *)
Section PurgeFacts.

Lemma length_zero_empty (v : string) : String.length v = 0 ↔ v = "".
Proof. by destruct v. Qed.

(** One round of the first loop either keeps both maps, and then the
    entry visited is sound, or deletes the delta entry visited, with or
    without its folders map. *)
Lemma purgeDelta_cases st k v :
  (purgeDelta st (k, v) = st ∧ v ≠ "" ∧ is_Some (prevFolders st !! k))
  ∨ (prevDeltas (purgeDelta st (k, v)) = delete k (prevDeltas st)
     ∧ (prevFolders (purgeDelta st (k, v)) = prevFolders st
        ∨ prevFolders (purgeDelta st (k, v)) = delete k (prevFolders st))).
Proof.
  unfold purgeDelta. destruct (decide (String.length v = 0)) as [Hv|Hv]; simpl.
  - right. rewrite lookup_delete_eq. simpl.
    rewrite delete_delete_eq. eauto.
  - destruct (prevFolders st !! k) eqn:Hk; simpl.
    + left. rewrite length_zero_empty in Hv. by eauto.
    + right. eauto.
Qed.

Lemma purgeDelta_lookup_delta st k v j w :
  prevDeltas (purgeDelta st (k, v)) !! j = Some w → prevDeltas st !! j = Some w.
Proof.
  destruct (purgeDelta_cases st k v) as [(-> & _)|(-> & _)]; [done|].
  rewrite lookup_delete_Some. by intros [_ ?].
Qed.

Lemma purgeDelta_self st k v :
  (∀ w, prevDeltas st !! k = Some w → w = v) →
  sound_delta (purgeDelta st (k, v)) k.
Proof.
  intros Hv w.
  destruct (purgeDelta_cases st k v) as [(-> & Hne & HF)|(-> & _)].
  - intros Hw. by apply Hv in Hw as ->.
  - by rewrite lookup_delete_eq.
Qed.

Lemma purgeDelta_sound_keep st k v j :
  sound_delta st j → sound_delta (purgeDelta st (k, v)) j.
Proof.
  intros Hj w.
  destruct (purgeDelta_cases st k v) as [(-> & _)|(-> & HF)]; [by apply Hj|].
  rewrite lookup_delete_Some. intros [Hne Hw].
  destruct (Hj _ Hw) as [? ?]. split; [done|].
  destruct HF as [-> | ->]; [done|]. by rewrite lookup_delete_ne.
Qed.

Lemma purgeDelta_fold_sound l : ∀ st,
  (∀ k v w, (k, v) ∈ l → prevDeltas st !! k = Some w → w = v) →
  ∀ j, (j ∈ l.*1 ∨ sound_delta st j) →
       sound_delta (foldl purgeDelta st l) j.
Proof.
  induction l as [|[k v] l IH]; intros st Hcons j Hj; simpl.
  - destruct Hj as [Hj|Hj]; [by apply elem_of_nil in Hj|done].
  - apply IH.
    + intros k' v' w Hin Hw. apply purgeDelta_lookup_delta in Hw.
      eapply Hcons; [by right|done].
    + destruct Hj as [Hj|Hj].
      * simpl in Hj. apply elem_of_cons in Hj as [->|Hj]; [|by left].
        right. apply purgeDelta_self. intros w Hw.
        eapply Hcons; [by left|done].
      * right. by apply purgeDelta_sound_keep.
Qed.

Lemma purgeDelta_fold_lookup l : ∀ st j w,
  prevDeltas (foldl purgeDelta st l) !! j = Some w → prevDeltas st !! j = Some w.
Proof.
  induction l as [|[k v] l IH]; intros st j w; simpl; [done|].
  intros Hl. apply IH in Hl. by apply purgeDelta_lookup_delta in Hl.
Qed.

Lemma purgeFolder_lookup st i k x :
  prevFolders (purgeFolder st i) !! k = Some x
  ↔ prevFolders st !! k = Some x ∧ (k = i → is_Some (prevDeltas st !! i)).
Proof.
  unfold purgeFolder. destruct (prevDeltas st !! i) eqn:Hi; simpl.
  - split; [|by intros [? _]]. intros ?. split; [done|]. intros _. by eauto.
  - rewrite lookup_delete_Some. split.
    + intros [Hne ?]. split; [done|]. by intros ->.
    + intros [? Himp]. split; [|done]. intros <-.
      destruct (Himp eq_refl) as [? ?]; done.
Qed.

Lemma purgeFolder_fold l : ∀ st,
  prevDeltas (foldl purgeFolder st l) = prevDeltas st
  ∧ ∀ k x, prevFolders (foldl purgeFolder st l) !! k = Some x
           ↔ prevFolders st !! k = Some x
             ∧ (k ∈ l → is_Some (prevDeltas st !! k)).
Proof.
  induction l as [|i l IH]; intros st; simpl.
  - split; [done|]. intros k x. split; [|by intros [? _]].
    intros ?. split; [done|]. by intros ?%elem_of_nil.
  - destruct (IH (purgeFolder st i)) as [HD HF].
    assert (prevDeltas (purgeFolder st i) = prevDeltas st) as HDi
      by (unfold purgeFolder; by case_match).
    split; [by rewrite HD|].
    intros k x. rewrite HF, HDi, purgeFolder_lookup. split.
    + intros [[Hk Hi] Hl]. split; [done|].
      intros [->|?]%elem_of_cons; [by apply Hi|by apply Hl].
    + intros [Hk Hl]. split; [split; [done|]|].
      * intros ->. apply Hl. by left.
      * intros ?. apply Hl. by right.
Qed.

(** After the purge no delta token is empty and the two maps have the
    same keys. *)
Lemma purgePartial_paired (st : MetaState) :
  (∀ k, prevDeltas (purgePartial st) !! k ≠ Some "")
  ∧ dom (prevDeltas (purgePartial st)) = dom (prevFolders (purgePartial st)).
Proof.
  unfold purgePartial.
  set (st1 := foldl purgeDelta st (map_to_list (prevDeltas st))).
  assert (Hsound : ∀ j, sound_delta st1 j).
  { intros j. apply purgeDelta_fold_sound.
    - intros k v w Hin Hw. apply elem_of_map_to_list in Hin. congruence.
    - destruct (prevDeltas st !! j) as [v|] eqn:Hj.
      + left. apply list_elem_of_fmap. exists (j, v).
        split; [done|]. by apply elem_of_map_to_list.
      + right. intros v. by rewrite Hj. }
  destruct (purgeFolder_fold (map_to_list (prevFolders st1)).*1 st1) as [HD HF].
  rewrite HD. split.
  - intros k Hk. by destruct (Hsound k _ Hk).
  - apply set_eq. intros k. rewrite !elem_of_dom. split.
    + intros [v Hv]. destruct (Hsound k _ Hv) as [_ [x Hx]].
      exists x. apply HF. split; [done|]. by eauto.
    + intros [x Hx]. apply HF in Hx as [Hx Hl]. apply Hl.
      apply list_elem_of_fmap. exists (k, x).
      split; [done|]. by apply elem_of_map_to_list.
Qed.

(** An empty delta token takes the drive out of both maps. *)
Lemma purgePartial_empty_token (st : MetaState) (k : string) :
  prevDeltas st !! k = Some "" →
  prevDeltas (purgePartial st) !! k = None
  ∧ prevFolders (purgePartial st) !! k = None.
Proof.
  intros Hk. destruct (purgePartial_paired st) as [Hne Hdom].
  assert (prevDeltas (purgePartial st) !! k = None) as HD.
  { destruct (prevDeltas (purgePartial st) !! k) as [w|] eqn:Hw; [|done].
    exfalso. pose proof Hw as Hw'. revert Hw'. unfold purgePartial.
    set (st1 := foldl purgeDelta st (map_to_list (prevDeltas st))).
    destruct (purgeFolder_fold (map_to_list (prevFolders st1)).*1 st1) as [-> _].
    intros Hw0%purgeDelta_fold_lookup. rewrite Hk in Hw0.
    injection Hw0 as <-. by apply (Hne k). }
  split; [done|].
  apply not_elem_of_dom. rewrite <- Hdom. by apply not_elem_of_dom.
Qed.

End PurgeFacts.

(** *** [deserializeMap] and [deserializeMetadata] *)
Section LoadFacts.
Context `{GraphNames}.

Lemma loadItems_app st evs1 evs2 st1 :
  loadItems st evs1 = Ok st1 →
  loadItems st (evs1 ++ evs2) = loadItems st1 evs2.
Proof.
  revert st. induction evs1 as [|[item|] evs1 IH]; intros st; simpl.
  - by intros [= ->].
  - destruct (loadItem st item); [apply IH|done].
  - done.
Qed.

Lemma loadCollections_app st cs1 cs2 st1 :
  loadCollections st cs1 = Ok st1 →
  loadCollections st (cs1 ++ cs2) = loadCollections st1 cs2.
Proof.
  revert st. induction cs1 as [|c cs1 IH]; intros st; simpl.
  - by intros [= ->].
  - destruct (loadItems st c); [apply IH|done].
Qed.

(** The result of a load that went through comes out of the purge, or is
    the pair of empty maps. *)
Lemma loadCollections_purged cols : ∀ st st',
  loadCollections st cols = Ok st' →
  (cols = [] ∧ st' = st) ∨ ∃ st0, st' = purgePartial st0.
Proof.
  induction cols as [|c cols IH]; intros st st'; simpl.
  - intros [= <-]. by left.
  - destruct (loadItems st c) as [st1|]; [|done].
    intros Hl. right. apply IH in Hl as [[-> ->]|[st0 ->]]; eauto.
Qed.


End LoadFacts.

Section MetadataClaims.
Context `{GraphNames}.

(** C9: [deserializeMap] is atomic on error.  Whenever it returns a
    non-nil error, be it the failure of the JSON decoder or a duplicate
    key, the accumulated map is left as it was; when it returns [nil] the
    decoded entries, none of which was there before, have been copied in. *)
Theorem C9_deserializeMap_atomic {T} (decoded : option (gmap string T))
    (alreadyFound after : gmap string T) (err : option error) :
  deserializeMap decoded alreadyFound = (after, err) →
  match err with
  | Some _ => after = alreadyFound
  | None =>
      ∃ tmp, decoded = Some tmp ∧ after = mapsCopy alreadyFound tmp
             ∧ (∀ k, is_Some (tmp !! k) → alreadyFound !! k = None)
  end.
Proof.
  destruct (deserializeMap_cases decoded alreadyFound)
    as [[_ ->]|[(tmp & _ & _ & ->)|(tmp & Hdec & Hfresh & ->)]];
    intros [= <- <-]; eauto.
Qed.


(** C5: a load that goes through returns paired maps.  No delta entry
    has an empty token, and the delta map and the path map have the same
    keys; the purge run after each collection drops a drive with an empty
    token from both maps. *)
Theorem C5_deserializeMetadata_paired (cols : list RestoreCollection)
    (st : MetaState) :
  deserializeMetadata cols = Ok st →
  (∀ k, prevDeltas st !! k ≠ Some "")
  ∧ dom (prevDeltas st) = dom (prevFolders st)
  ∧ (∀ st0 k, prevDeltas st0 !! k = Some "" →
              prevDeltas (purgePartial st0) !! k = None
              ∧ prevFolders (purgePartial st0) !! k = None).
Proof.
  intros Hload. split; [|split].
  - apply loadCollections_purged in Hload as [[_ ->]|[st0 ->]].
    + intros k. simpl. by rewrite lookup_empty.
    + apply purgePartial_paired.
  - apply loadCollections_purged in Hload as [[_ ->]|[st0 ->]].
    + simpl. by rewrite !dom_empty_L.
    + apply purgePartial_paired.
  - apply purgePartial_empty_token.
Qed.

End MetadataClaims.

Lemma C9_deserializeMap_atomic_witness :
  deserializeMap (Some ({[ "d1" := "x" ]} : gmap string string)) {[ "d1" := "y" ]}
    = ({[ "d1" := "y" ]}, Some (errWrap "" errExistingMapping))
  ∧ ({[ "d1" := "y" ]} : gmap string string) = {[ "d1" := "y" ]}.
Proof.
  split; [by vm_compute|].
  apply (C9_deserializeMap_atomic
           (Some ({[ "d1" := "x" ]} : gmap string string)) {[ "d1" := "y" ]}
           {[ "d1" := "y" ]} (Some (errWrap "" errExistingMapping))).
  by vm_compute.
Defined.


Lemma C5_deserializeMetadata_paired_witness :
  let cols := [ [Recv (Sample.deltaFile "t1"); Recv Sample.pathsFile] ] in
  let st := {| prevDeltas := {[ "d1" := "t1" ]};
               prevFolders := {[ "d1" := {[ "folder1" := "t/onedrive/u/files/drives/d1/root:/a" ]} ]} |} in
  @deserializeMetadata Sample.names cols = Ok st
  ∧ (∀ k, prevDeltas st !! k ≠ Some "")
  ∧ dom (prevDeltas st) = dom (prevFolders st).
Proof.
  intros cols st.
  assert (Hload : @deserializeMetadata Sample.names cols = Ok st) by (by vm_compute).
  split; [exact Hload|].
  destruct (@C5_deserializeMetadata_paired Sample.names cols st Hload) as (Hne & Hdom & _).
  by split.
Defined.

(** ** [Collection.Add] and [Collection.Remove] *)
Section CollectionClaims.
Context `{PathOps}.

Lemma setDriveItems_same (oc : Collection) : setDriveItems oc (driveItems oc) = oc.
Proof. by destruct oc. Qed.

(** C10 (amended): [Add] returns [true] exactly when no item with the same
    id was in the collection; after the call the item is there under its
    id; a [Remove] of the same item right after returns [true] and leaves
    the collection without that id, which is the collection as it was
    before the [Add] when the item was new ([Add] returned [true]); and
    adding the same item a second time changes nothing and returns
    [false]. *)
Theorem C10_Add_Remove (oc : Collection) (item : DriveItem) :
  let oc1 := (Add oc item).1 in
  let oc2 := (Remove oc1 item).1 in
  ((Add oc item).2 = true ↔ driveItems oc !! itemId item = None)
  ∧ driveItems oc1 !! itemId item = Some item
  ∧ (Remove oc1 item).2 = true
  ∧ driveItems oc2 = delete (itemId item) (driveItems oc)
  ∧ ((Add oc item).2 = true → oc2 = oc)
  ∧ Add oc1 item = (oc1, false).
Proof.
  unfold Add, Remove. simpl.
  rewrite lookup_insert_eq.
  rewrite (bool_decide_eq_true_2 (is_Some (Some item))) by eauto. simpl.
  rewrite delete_insert_eq, insert_insert_eq.
  repeat split.
  - intros Hn%negb_true_iff%bool_decide_eq_false.
    by apply eq_None_not_Some.
  - intros Hn. apply negb_true_iff, bool_decide_eq_false.
    by apply eq_None_not_Some.
  - intros Hn%negb_true_iff%bool_decide_eq_false%eq_None_not_Some.
    destruct oc as [fp items ? ? ? ? ?]. unfold setDriveItems. simpl in *.
    f_equal. by apply delete_id.
Qed.

End CollectionClaims.

(** C10, as stated, fails on an item that was already in the collection:
    [Add] then [Remove] leaves the collection without the item, not with
    the membership it had before. *)
Lemma C10_Add_Remove_counterexample :
  let item := Sample.mkFile "f1" "report" "root" "/drives/d1/root:" in
  let oc := Sample.collectionAt Sample.rootPath [item] in
  let oc2 := (@Remove Sample.stringPaths (@Add Sample.stringPaths oc item).1 item).1 in
  (@Remove Sample.stringPaths (@Add Sample.stringPaths oc item).1 item).2 = true
  ∧ dom (@driveItems Sample.stringPaths oc2) ≠ dom (@driveItems Sample.stringPaths oc).
Proof.
  intros item oc oc2. split; [by vm_compute|].
  intros Heq.
  assert (Hin : "f1" ∈ dom (@driveItems Sample.stringPaths oc)).
  { apply elem_of_dom. eexists. by vm_compute. }
  rewrite <- Heq in Hin. apply elem_of_dom in Hin as [x Hx].
  by vm_compute in Hx.
Qed.

(** ** [updatePath] *)
Section UpdatePathFacts.

Lemma rewrite_fold_other oldPath newPath l : ∀ (m : gmap string string) k,
  k ∉ l.*1 → foldl (rewriteEntry oldPath newPath) m l !! k = m !! k.
Proof.
  induction l as [|[k' p'] l IH]; intros m k Hk; simpl; [done|].
  simpl in Hk. apply not_elem_of_cons in Hk as [Hne Hk].
  rewrite IH by done. unfold rewriteEntry.
  destruct (GoStrings.HasPrefix p' oldPath); [|done].
  by rewrite lookup_insert_ne.
Qed.

Lemma rewrite_fold_entry oldPath newPath l : ∀ (m : gmap string string) k p,
  NoDup l.*1 → (k, p) ∈ l →
  foldl (rewriteEntry oldPath newPath) m l !! k =
    if GoStrings.HasPrefix p oldPath
    then Some (GoStrings.Replace1 p oldPath newPath)
    else m !! k.
Proof.
  induction l as [|[k' p'] l IH]; intros m k p Hnd Hin; simpl.
  - by apply elem_of_nil in Hin.
  - simpl in Hnd. apply NoDup_cons in Hnd as [Hk' Hnd].
    apply elem_of_cons in Hin as [[= <- <-]|Hin].
    + rewrite rewrite_fold_other by done. unfold rewriteEntry.
      destruct (GoStrings.HasPrefix p oldPath); [|done].
      by rewrite lookup_insert_eq.
    + rewrite (IH _ k p) by done. unfold rewriteEntry.
      destruct (GoStrings.HasPrefix p oldPath) eqn:Hp; [done|].
      destruct (GoStrings.HasPrefix p' oldPath); [|done].
      rewrite lookup_insert_ne; [done|].
      intros ->. apply Hk'. apply list_elem_of_fmap. by exists (k, p).
Qed.

(** [updatePath] on a folder whose recorded path is not empty and differs
    from the new one: every entry is read once, and rewritten when its
    value starts with the recorded path. *)
Lemma updatePath_moved (paths : gmap string string) (id oldPath newPath : string) :
  paths !! id = Some oldPath → oldPath ≠ "" → oldPath ≠ newPath →
  ∀ k, updatePath paths id newPath !! k =
       (λ p, if GoStrings.HasPrefix p oldPath
             then newPath +:+ GoStrings.drop (String.length oldPath) p
             else p) <$> paths !! k.
Proof.
  intros Hid Hne Hdiff k. unfold updatePath. rewrite Hid. simpl.
  rewrite decide_False by (by rewrite length_zero_empty).
  rewrite decide_False by done.
  destruct (paths !! k) as [p|] eqn:Hk; simpl.
  - rewrite (rewrite_fold_entry oldPath newPath _ _ k p).
    + destruct (GoStrings.HasPrefix p oldPath) eqn:Hp; [|done].
      by rewrite Replace1_prefix.
    + apply NoDup_fst_map_to_list.
    + by apply elem_of_map_to_list.
  - rewrite rewrite_fold_other; [done|].
    intros ([k' p'] & -> & Hin)%list_elem_of_fmap.
    apply elem_of_map_to_list in Hin. simpl in Hk. congruence.
Qed.

Lemma updatePath_fresh (paths : gmap string string) (id newPath : string) :
  default "" (paths !! id) = "" →
  updatePath paths id newPath = <[id := newPath]> paths.
Proof. intros Hid. unfold updatePath. by rewrite Hid. Qed.

(** The prefix is a prefix of the string, not of the list of path elements:
    a sibling whose name starts with the name of the moved folder is
    rewritten too. *)
Example updatePath_subtree :
  updatePath {[ "A" := "r/A"; "B" := "r/A/B"; "C" := "r/AB"; "D" := "r/D" ]}
    "A" "r/Z"
  = {[ "A" := "r/Z"; "B" := "r/Z/B"; "C" := "r/ZB"; "D" := "r/D" ]}.
Proof. by vm_compute. Qed.

End UpdatePathFacts.

(** ** [Collections.UpdateCollections] *)
Section UpdateCollectionsFacts.
Context `{PathOps}.

(** What an item that reaches the [switch] has gone through. *)
Lemma resolveItem_Resolved driveID' driveName oldPaths st item cid cp ip :
  resolveItem driveID' driveName oldPaths st item = Resolved cid cp ip →
  itemRoot item = false
  ∧ (∃ ref pathStr,
       itemParentReference item = Some ref ∧ refId ref = Some cid
       ∧ (if itemDeleted item then oldPaths !! cid else refPath ref) = Some pathStr
       ∧ GetCanonicalPath pathStr (tenant (colls st)) (resourceOwner (colls st))
           (source (colls st)) = Ok cp)
  ∧ (if itemDeleted item then ip = None
     else ∃ p, ip = Some p
               ∧ default "" (itemName item) ≠ ""
               ∧ PathAppend cp (default "" (itemName item))
                   (negb (itemFolder item || itemPackage item)) = Some p)
  ∧ (shouldSkipDrive ip (matcher (colls st)) driveName
     && shouldSkipDrive (Some cp) (matcher (colls st)) driveName) = false.
Proof.
  unfold resolveItem.
  destruct (itemRoot item); [by case_match|].
  destruct (itemParentReference item) as [ref|] eqn:Href; [|done].
  destruct (refId ref) as [collectionID|] eqn:Hid; [|done].
  destruct (negb (itemDeleted item) && bool_decide (refPath ref = None)); [done|].
  destruct (if itemDeleted item then oldPaths !! collectionID else refPath ref)
    as [pathStr|] eqn:Hstr; [|done].
  destruct (GetCanonicalPath pathStr _ _ _) as [collectionPath|] eqn:Hcanon; [|done].
  destruct (itemDeleted item) eqn:Hdel.
  - destruct (shouldSkipDrive None _ _ && _) eqn:Hskip; [done|].
    intros [= <- <- <-]. split; [done|].
    split; [by exists ref, pathStr|]. by split.
  - destruct (decide (String.length (default "" (itemName item)) = 0)) as [|Hname];
      [done|].
    destruct (PathAppend collectionPath _ _) as [p|] eqn:Happ; [|done].
    destruct (shouldSkipDrive (Some p) _ _ && _) eqn:Hskip; [done|].
    intros [= <- <- <-]. split; [done|].
    split; [by exists ref, pathStr|].
    split; [|done]. exists p. split; [done|]. split; [|done].
    by rewrite <- length_zero_empty.
Qed.


(** [UpdateCollections] goes through the items in order: after a first
    part that ends normally, the rest is processed from the state reached. *)
Lemma UpdateCollections_app driveID' driveName items1 items2 oldPaths
    invalidPrevDelta st st1 :
  UpdateCollections driveID' driveName items1 oldPaths invalidPrevDelta st
    = (st1, Continue) →
  UpdateCollections driveID' driveName (items1 ++ items2) oldPaths
    invalidPrevDelta st
  = UpdateCollections driveID' driveName items2 oldPaths invalidPrevDelta st1.
Proof.
  revert st. induction items1 as [|item items1 IH]; intros st; simpl.
  - by intros [= ->].
  - destruct (updateItem _ _ _ _ st item) as [st' []]; [apply IH|done..].
Qed.

End UpdateCollectionsFacts.

Section UpdateCollectionsClaims.
Context `{PathOps}.



(** What [Remove] does to the items of a collection. *)
Lemma Remove_cases (oc : Collection) (item : DriveItem) :
  (driveItems oc !! itemId item = None ∧ Remove oc item = (oc, false))
  ∨ (is_Some (driveItems oc !! itemId item)
     ∧ Remove oc item
       = (setDriveItems oc (delete (itemId item) (driveItems oc)), true)).
Proof.
  unfold Remove. destruct (driveItems oc !! itemId item) eqn:Hi.
  - right. split; [by eauto|].
    by rewrite (bool_decide_eq_true_2 (is_Some (Some d))) by eauto.
  - left. split; [done|].
    rewrite (bool_decide_eq_false_2 (is_Some None)); [done|]. by intros [? ?].
Qed.


End UpdateCollectionsClaims.




(** ** [Collections.Get] *)
Section GetFacts.
Context `{GraphNames} `{PathOps}.

(** What a pass through the loop body that goes on to the next drive has
    written into the two metadata maps. *)
Lemma getDrive_metadata be meta st d st' :
  getDrive be meta st d = (st', Continue) →
  ∃ c1 delta paths excluded',
    collectItems be (getColls st) (driveGetId d) (driveGetName d)
      (default ∅ (prevFolders meta !! driveGetId d))
      (default "" (prevDeltas meta !! driveGetId d))
      = (c1, Ok (delta, paths, excluded'))
    ∧ folderPaths st' = <[driveGetId d := mapsCopy ∅ paths]> (folderPaths st)
    ∧ deltaURLs st' =
        (if bool_decide (0 < String.length (URL delta))
         then <[driveGetId d := URL delta]> (deltaURLs st)
         else deltaURLs st).
Proof.
  unfold getDrive.
  destruct (collectItems be _ _ _ _ _) as [c1 [[[delta paths] excluded']|e]];
    [|done].
  intros Hrun. exists c1, delta, paths, excluded'. split; [done|].
  destruct (negb (Reset delta)); [by injection Hrun as <-|].
  destruct (modifiedPathsOf _); [|done].
  destruct (foldl _ _ _); [|done].
  by injection Hrun as <-.
Qed.

Lemma getDrive_inv be meta st d st' seen :
  getDrive be meta st d = (st', Continue) →
  metadata_inv seen st → metadata_inv (seen ++ [driveGetId d]) st'.
Proof.
  intros (c1 & delta & paths & excluded' & _ & HF & HD)%getDrive_metadata
         (Hseen & Hsub & Hne).
  unfold metadata_inv. rewrite HF, HD. split; [|split].
  - intros d'. rewrite dom_insert, elem_of_union, elem_of_singleton,
      elem_of_app, list_elem_of_singleton, Hseen. tauto.
  - case_bool_decide; rewrite !dom_insert_L.
    + by apply union_mono_l.
    + etrans; [done|]. apply union_subseteq_r.
  - intros d' u. case_bool_decide as Hlen; [|by apply Hne].
    intros [[_ <-]|[_ ?]]%lookup_insert_Some; [|by eapply Hne].
    intros Hu. rewrite Hu in Hlen. simpl in Hlen. lia.
Qed.

Lemma getDrives_inv be meta drives : ∀ st st' seen,
  getDrives be meta st drives = (st', Continue) →
  metadata_inv seen st → metadata_inv (seen ++ (driveGetId <$> drives)) st'.
Proof.
  induction drives as [|d drives IH]; intros st st' seen; simpl.
  - intros [= <-]. by rewrite app_nil_r.
  - destruct (getDrive be meta st d) as [st1 []] eqn:Hd; try done.
    intros Hrest Hinv. rewrite cons_middle, app_assoc.
    eapply IH; [done|]. by eapply getDrive_inv.
Qed.

End GetFacts.

Section GetClaims.
Context `{GraphNames} `{PathOps}.


End GetClaims.



(** *** Tombstones for the folders a reset enumeration no longer reports *)
Section TombstoneFacts.
Context `{PathOps}.








End TombstoneFacts.

Section TombstoneClaims.
Context `{PathOps}.


End TombstoneClaims.



(** ** Backup details *)
Section DetailsFacts.
Import details.
Context `{BuilderOps}.

Lemma wrap64_add (a b : Z) : wrap64 (wrap64 a + b) = wrap64 (a + b).
Proof.
  unfold wrap64. f_equal.
  replace ((a + 2 ^ 63) `mod` 2 ^ 64 - 2 ^ 63 + b + 2 ^ 63)%Z
    with ((a + 2 ^ 63) `mod` 2 ^ 64 + b)%Z by lia.
  rewrite Zplus_mod_idemp_l. f_equal. lia.
Qed.


Lemma length_Dir (pb : PathBuilder) : length (Dir pb) = pred (length pb).
Proof.
  unfold Dir. induction pb as [|x [|y pb] IH]; simpl in *; [done..|].
  by rewrite IH.
Qed.


(** More fuel than the length of the path changes nothing: the loop has
    ended by then. *)
Lemma folderEntriesLoop_fuel extra : ∀ parent lfs,
  folderEntriesLoop (length parent + extra) parent lfs
  = folderEntriesLoop (length parent) parent lfs.
Proof.
  intros parent. remember (length parent) as n eqn:Hn.
  revert parent Hn. induction n as [|n IH]; intros parent Hn lfs.
  - destruct parent; [|done]. by destruct extra.
  - simpl. case_bool_decide; [|done]. f_equal.
    apply IH. rewrite length_Dir. unfold Elements in *. lia.
Qed.



(** The folders implied by a path are its non-empty prefixes. *)
Lemma elem_of_ancestors (parent F : PathBuilder) :
  F ∈ ancestors parent ↔ F ≠ [] ∧ F `prefix_of` parent.
Proof.
  unfold ancestors.
  induction parent as [|x parent IH] using rev_ind.
  - simpl. split; [by intros ?%elem_of_nil|].
    intros [Hne Hpre]. by apply prefix_nil_inv in Hpre.
  - rewrite length_app. simpl. rewrite Nat.add_1_r. simpl.
    rewrite bool_decide_eq_true_2
      by (unfold Elements; rewrite length_app; simpl; lia).
    unfold Dir at 1. rewrite removelast_last.
    rewrite elem_of_cons, IH. split.
    + intros [->|[Hne Hpre]].
      * split; [by destruct parent|done].
      * split; [done|]. by apply prefix_app_r.
    + intros [Hne [k Hk]].
      destruct k as [|y k _] using rev_ind.
      * left. by rewrite app_nil_r in Hk.
      * right. split; [done|]. exists k.
        rewrite app_assoc in Hk. by apply app_inj_tail in Hk as [-> _].
Qed.

End DetailsFacts.

Section BuilderFacts.
Import details.
Context `{BuilderOps}.

Lemma updateFolder_Some info upd e fi :
  Folder (Info e) = Some fi →
  ∃ e' fi',
    updateFolder info upd e = Some e'
    ∧ ShortRef e' = ShortRef e ∧ RepoRef e' = RepoRef e
    ∧ Folder (Info e') = Some fi'
    ∧ folderSize fi' = wrap64 (folderSize fi + size info)
    ∧ folderModified fi' = Z.max (folderModified fi) (Modified info)
    ∧ Updated e' = Updated e || upd.
Proof.
  intros Hfi. unfold updateFolder. rewrite Hfi.
  eexists _, _. split; [done|]. simpl. repeat split.
  - simpl. unfold Before.
    destruct (Z.ltb_spec (folderModified fi) (Modified info)); lia.
  - destruct upd; [by rewrite orb_true_r|by rewrite orb_false_r].
Qed.


Lemma addFolder_fold (l : list folderEntry) : ∀ ents,
  foldl addFolder ents l = ents ++ (folderDetails <$> l).
Proof.
  induction l as [|e l IH]; intros ents; simpl; [by rewrite app_nil_r|].
  rewrite IH. unfold addFolder at 1. by rewrite <- app_assoc.
Qed.

(** [b.Details()] appends one details entry for each known folder. *)
Lemma Details_entries (b : Builder) :
  Entries (Details b)
  = Entries b ++ (folderDetails <$> (map_to_list (knownFolders b)).*2).
Proof. unfold Details. simpl. apply addFolder_fold. Qed.



(** *** Totals over the items beneath a folder *)











End BuilderFacts.

Section BuilderInvariant.
Import details.
Context `{BuilderOps}.





End BuilderInvariant.

Section BuilderClaims.
Import details.
Context `{BuilderOps}.




End BuilderClaims.


(** ** More on [updatePath] *)
Section UpdatePathMore.

Lemma append_empty_r (s : string) : s +:+ "" = s.
Proof.
  induction s as [|c s IH]; [done|].
  change (String c (s +:+ "") = String c s). by rewrite IH.
Qed.

Lemma drop_all (s : string) : GoStrings.drop (String.length s) s = "".
Proof. induction s as [|c s IH]; [done|]. exact IH. Qed.

Lemma prefix_self (s : string) : String.prefix s s = true.
Proof. rewrite <- (append_empty_r s) at 2. apply prefix_app. Qed.

Lemma default_nonempty (paths : gmap string string) (id : string) :
  String.length (default "" (paths !! id)) ≠ 0 →
  paths !! id = Some (default "" (paths !! id)).
Proof. destruct (paths !! id) as [p|]; [done|]. cbn. intros Hn. by destruct Hn. Qed.

Lemma updatePath_lookup_id (paths : gmap string string) (id newPath : string) :
  updatePath paths id newPath !! id = Some newPath.
Proof.
  destruct (decide (String.length (default "" (paths !! id)) = 0)) as [Hz|Hnz].
  - rewrite updatePath_fresh; [apply lookup_insert_eq|].
    by apply length_zero_empty.
  - pose proof (default_nonempty _ _ Hnz) as Hid.
    destruct (decide (default "" (paths !! id) = newPath)) as [He|Hne].
    + unfold updatePath. rewrite decide_False by done.
      rewrite decide_True by done. by rewrite Hid, He.
    + rewrite (updatePath_moved paths id _ newPath Hid); [|by rewrite length_zero_empty in Hnz|done].
      rewrite Hid. cbn. unfold GoStrings.HasPrefix. rewrite prefix_self.
      by rewrite drop_all, append_empty_r.
Qed.

Lemma updatePath_dom (paths : gmap string string) (id newPath : string) :
  dom (updatePath paths id newPath) = {[ id ]} ∪ dom paths.
Proof.
  destruct (decide (String.length (default "" (paths !! id)) = 0)) as [Hz|Hnz].
  - rewrite updatePath_fresh; [apply dom_insert_L|]. by apply length_zero_empty.
  - pose proof (default_nonempty _ _ Hnz) as Hid.
    assert (id ∈ dom paths) as Hin by (apply elem_of_dom; eauto).
    destruct (decide (default "" (paths !! id) = newPath)) as [He|Hne].
    + unfold updatePath. rewrite decide_False by done.
      rewrite decide_True by done.
      apply set_eq. intros k. rewrite elem_of_union, elem_of_singleton.
      split; [by right | by intros [->|]].
    + apply set_eq. intros k. rewrite elem_of_union, elem_of_singleton, !elem_of_dom.
      rewrite (updatePath_moved paths id _ newPath Hid); [|by rewrite length_zero_empty in Hnz|done].
      rewrite fmap_is_Some. split; [by right|]. intros [->|Hk]; [eauto|done].
Qed.

(** X1: whatever [paths] held, after [updatePath(paths, id, newPath)] the
    map has [newPath] under [id], and its keys are the keys it had together
    with [id]: the call never drops a folder and adds no other one. *)
Theorem X1_updatePath_sets_id (paths : gmap string string) (id newPath : string) :
  updatePath paths id newPath !! id = Some newPath
  ∧ dom (updatePath paths id newPath) = {[ id ]} ∪ dom paths.
Proof. split; [apply updatePath_lookup_id | apply updatePath_dom]. Qed.

(** X2: [updatePath] is idempotent: a second call with the same [id] and
    [newPath] leaves the map as the first call left it. *)
Theorem X2_updatePath_idempotent (paths : gmap string string) (id newPath : string) :
  updatePath (updatePath paths id newPath) id newPath = updatePath paths id newPath.
Proof.
  pose proof (updatePath_lookup_id paths id newPath) as Hid.
  set (m := updatePath paths id newPath) in *.
  unfold updatePath. rewrite Hid. cbn.
  destruct (decide (String.length newPath = 0)); [by apply insert_id|].
  by rewrite decide_True.
Qed.

End UpdatePathMore.

(** ** The purge of partial metadata, exactly *)
Section PurgeExact.

Lemma purgeDelta_delta_iff st k0 v0 k w :
  prevDeltas (purgeDelta st (k0, v0)) !! k = Some w
  ↔ prevDeltas st !! k = Some w
    ∧ (k = k0 → v0 ≠ "" ∧ is_Some (prevFolders st !! k0)).
Proof.
  unfold purgeDelta.
  destruct (decide (String.length v0 = 0)) as [Hz|Hnz]; cbn.
  - apply length_zero_empty in Hz. rewrite lookup_delete_eq. cbn.
    destruct (decide (k = k0)) as [->|Hk].
    + rewrite !lookup_delete_eq. split; [done|]. intros [_ Hc].
      by destruct (Hc eq_refl).
    + rewrite !lookup_delete_ne by done. split; [by intros ?; split|tauto].
  - rewrite length_zero_empty in Hnz.
    destruct (prevFolders st !! k0) as [x|] eqn:Hf; cbn.
    + split; [by intros ?; split; eauto|tauto].
    + destruct (decide (k = k0)) as [->|Hk].
      * rewrite lookup_delete_eq. split; [done|]. intros [_ Hc].
        destruct (Hc eq_refl) as [_ [? ?]]. done.
      * rewrite lookup_delete_ne by done. split; [by intros ?; split|tauto].
Qed.

Lemma purgeDelta_folder_iff st k0 v0 k x :
  prevFolders (purgeDelta st (k0, v0)) !! k = Some x
  ↔ prevFolders st !! k = Some x ∧ ¬ (k = k0 ∧ v0 = "").
Proof.
  unfold purgeDelta.
  destruct (decide (String.length v0 = 0)) as [Hz|Hnz]; cbn.
  - apply length_zero_empty in Hz. rewrite lookup_delete_eq. cbn.
    destruct (decide (k = k0)) as [->|Hk].
    + rewrite lookup_delete_eq. split; [done|]. intros [_ Hc]. by destruct Hc.
    + rewrite lookup_delete_ne by done. split; [|tauto].
      intros ?. split; [done|]. by intros [? _].
  - rewrite length_zero_empty in Hnz.
    assert (prevFolders
              match prevFolders st !! k0 with
              | Some _ => st
              | None => {| prevDeltas := delete k0 (prevDeltas st);
                           prevFolders := prevFolders st |}
              end = prevFolders st) as -> by (by destruct (prevFolders st !! k0)).
    split; [|tauto]. intros ?. split; [done|]. by intros [_ ?].
Qed.

Lemma purgeDelta_fold_exact l : ∀ st,
  (∀ k w, prevDeltas (foldl purgeDelta st l) !! k = Some w
          ↔ prevDeltas st !! k = Some w
            ∧ ∀ v, (k, v) ∈ l → v ≠ "" ∧ is_Some (prevFolders st !! k))
  ∧ (∀ k x, prevFolders (foldl purgeDelta st l) !! k = Some x
            ↔ prevFolders st !! k = Some x ∧ (k, "") ∉ l).
Proof.
  induction l as [|[k0 v0] l IH]; intros st.
  - cbn [foldl]. split; intros k y.
    + split; [|tauto]. intros ?. split; [done|]. intros v Hv. by apply elem_of_nil in Hv.
    + split; [|tauto]. intros ?. split; [done|]. apply not_elem_of_nil.
  - cbn [foldl]. destruct (IH (purgeDelta st (k0, v0))) as [IHd IHf].
    split; intros k y.
    + rewrite IHd, purgeDelta_delta_iff. split.
      * intros [[Hd Hk] Hl]. split; [done|]. intros v Hv.
        apply elem_of_cons in Hv as [Heq|Hv].
        { injection Heq as -> ->. by apply Hk. }
        destruct (Hl v Hv) as [Hne [z Hz]]. split; [done|].
        apply purgeDelta_folder_iff in Hz as [Hz _]. eauto.
      * intros [Hd Hl]. split; [split; [done|]|].
        { intros ->. apply Hl. apply elem_of_cons. by left. }
        intros v Hv. destruct (Hl v) as [Hne [z Hz]]; [apply elem_of_cons; by right|].
        split; [done|]. exists z. apply purgeDelta_folder_iff. split; [done|].
        intros [-> ->]. destruct (Hl "") as [Hc _]; [apply elem_of_cons; by left|done].
    + rewrite IHf, purgeDelta_folder_iff, not_elem_of_cons. split.
      * intros [[Hf Hn] Hl]. split; [done|]. split; [|done].
        intros Heq. injection Heq as -> <-. by apply Hn.
      * intros [Hf [Hn Hl]]. split; [split; [done|]|done].
        intros [-> ->]. by apply Hn.
Qed.

Lemma purgePartial_delta_iff st k v :
  prevDeltas (purgePartial st) !! k = Some v
  ↔ prevDeltas st !! k = Some v ∧ v ≠ "" ∧ is_Some (prevFolders st !! k).
Proof.
  unfold purgePartial.
  destruct (purgeFolder_fold
              (map_to_list (prevFolders (foldl purgeDelta st
                 (map_to_list (prevDeltas st))))).*1
              (foldl purgeDelta st (map_to_list (prevDeltas st)))) as [-> _].
  destruct (purgeDelta_fold_exact (map_to_list (prevDeltas st)) st) as [-> _].
  split.
  - intros [Hd Hl]. split; [done|]. apply Hl. by apply elem_of_map_to_list.
  - intros [Hd Hl]. split; [done|]. intros w Hw.
    apply elem_of_map_to_list in Hw. by simplify_eq.
Qed.

Lemma purgePartial_folder_iff st k x :
  prevFolders (purgePartial st) !! k = Some x
  ↔ prevFolders st !! k = Some x
    ∧ ∃ v, prevDeltas st !! k = Some v ∧ v ≠ "".
Proof.
  unfold purgePartial.
  set (st1 := foldl purgeDelta st (map_to_list (prevDeltas st))).
  destruct (purgeFolder_fold (map_to_list (prevFolders st1)).*1 st1) as [_ ->].
  destruct (purgeDelta_fold_exact (map_to_list (prevDeltas st)) st) as [Hd Hf].
  fold st1 in Hd, Hf. rewrite Hf. split.
  - intros [[Hx Hn] Hk]. split; [done|].
    destruct Hk as [v Hv].
    { apply list_elem_of_fmap. exists (k, x). split; [done|].
      apply elem_of_map_to_list. apply Hf. by split. }
    apply Hd in Hv as [Hv Hl]. exists v. split; [done|].
    apply Hl. by apply elem_of_map_to_list.
  - intros [Hx [v [Hv Hne]]]. split; [split; [done|]|].
    + intros Hin. apply elem_of_map_to_list in Hin. by simplify_eq.
    + intros _. exists v. apply Hd. split; [done|]. intros w Hw.
      apply elem_of_map_to_list in Hw. simplify_eq. eauto.
Qed.

Lemma MetaState_eq (a b : MetaState) :
  prevDeltas a = prevDeltas b → prevFolders a = prevFolders b → a = b.
Proof. destruct a, b. cbn. by intros -> ->. Qed.

(** X3: the purge that ends the load of every metadata collection keeps a
    drive's delta token exactly when the token is not empty and the drive
    has a folders map, and keeps a drive's folders map exactly when the
    drive has a non-empty delta token; what it keeps it keeps unchanged. *)
Theorem X3_purgePartial_exact (st : MetaState) :
  (∀ k v, prevDeltas (purgePartial st) !! k = Some v
          ↔ prevDeltas st !! k = Some v ∧ v ≠ ""
            ∧ is_Some (prevFolders st !! k))
  ∧ (∀ k x, prevFolders (purgePartial st) !! k = Some x
            ↔ prevFolders st !! k = Some x
              ∧ ∃ v, prevDeltas st !! k = Some v ∧ v ≠ "").
Proof. split; [apply purgePartial_delta_iff | apply purgePartial_folder_iff]. Qed.

(** X4: the purge is idempotent: purging purged metadata removes nothing
    more. *)
Theorem X4_purgePartial_idempotent (st : MetaState) :
  purgePartial (purgePartial st) = purgePartial st.
Proof.
  apply MetaState_eq; apply map_eq; intros k; apply option_eq; intros y.
  - rewrite !purgePartial_delta_iff. split; [tauto|].
    intros (Hd & Hne & [x Hx]). split; [done|]. split; [done|].
    exists x. apply purgePartial_folder_iff. eauto.
  - rewrite !purgePartial_folder_iff. split; [tauto|].
    intros (Hf & v & Hv & Hne). split; [eauto|].
    exists v. split; [|done]. apply purgePartial_delta_iff. eauto.
Qed.

End PurgeExact.

(** ** Loading metadata: files that are skipped, cancellation, and reading
       back what [Get] persisted *)
Section LoadMore.
Context `{GraphNames}.

Lemma loadItem_skipped st item :
  (UUID item ≠ PreviousPathFileName ∧ UUID item ≠ DeltaURLsFileName)
  ∨ (UUID item = PreviousPathFileName ∧ decodeFolders item = None)
  ∨ (UUID item ≠ PreviousPathFileName ∧ UUID item = DeltaURLsFileName
     ∧ decodeDeltas item = None) →
  loadItem st item = Ok st.
Proof.
  unfold loadItem. intros [[Hp Hd]|[[Hp Hdec]|(Hp & Hd & Hdec)]].
  - by rewrite !decide_False.
  - rewrite decide_True by done. rewrite Hdec. cbn. by destruct st.
  - rewrite decide_False, decide_True by done. rewrite Hdec. cbn. by destruct st.
Qed.

Lemma loadItems_skip evs1 evs2 item :
  (∀ st, loadItem st item = Ok st) →
  ∀ st, loadItems st (evs1 ++ Recv item :: evs2) = loadItems st (evs1 ++ evs2).
Proof.
  intros Hskip. induction evs1 as [|[it|] evs1 IH]; intros st; cbn.
  - by rewrite Hskip.
  - destruct (loadItem st it); [apply IH|done].
  - done.
Qed.

Lemma loadCollections_congr cs1 cs2 col col' :
  (∀ st, loadItems st col = loadItems st col') →
  ∀ st, loadCollections st (cs1 ++ col :: cs2)
        = loadCollections st (cs1 ++ col' :: cs2).
Proof.
  intros Hcol. induction cs1 as [|c cs1 IH]; intros st; cbn.
  - by rewrite Hcol.
  - destruct (loadItems st c); [apply IH|done].
Qed.

(** X5: a metadata file with a name other than the two known ones, and a
    file with a known name whose contents do not decode, are skipped:
    [deserializeMetadata] gives what it gives without the file, be it maps
    or an error. *)
Theorem X5_unreadable_file_skipped (cs1 cs2 : list RestoreCollection)
    (evs1 evs2 : RestoreCollection) (item : MetadataItem) :
  (UUID item ≠ PreviousPathFileName ∧ UUID item ≠ DeltaURLsFileName)
  ∨ (UUID item = PreviousPathFileName ∧ decodeFolders item = None)
  ∨ (UUID item ≠ PreviousPathFileName ∧ UUID item = DeltaURLsFileName
     ∧ decodeDeltas item = None) →
  deserializeMetadata (cs1 ++ (evs1 ++ Recv item :: evs2) :: cs2)
  = deserializeMetadata (cs1 ++ (evs1 ++ evs2) :: cs2).
Proof.
  intros Hskip. unfold deserializeMetadata.
  apply loadCollections_congr. apply loadItems_skip.
  intros st. by apply loadItem_skipped.
Qed.

(** X6: when the context is cancelled while a collection is being read,
    [deserializeMetadata] fails, whatever was read before and whatever
    would have come after; nothing of what was loaded is returned. *)
Theorem X6_cancelled_load_fails (cs1 cs2 : list RestoreCollection)
    (evs1 evs2 : RestoreCollection) (st1 st : MetaState) :
  loadCollections {| prevDeltas := ∅; prevFolders := ∅ |} cs1 = Ok st1 →
  loadItems st1 evs1 = Ok st →
  deserializeMetadata (cs1 ++ (evs1 ++ CtxDone :: evs2) :: cs2)
  = Err (errWrap "deserialzing previous backup metadata" (errExternal "context")).
Proof.
  intros Hcs Hevs. unfold deserializeMetadata.
  rewrite (loadCollections_app _ _ _ _ Hcs). cbn [loadCollections].
  by rewrite (loadItems_app _ _ _ _ Hevs).
Qed.

Lemma deserializeMap_into_empty {T} (m : gmap string T) :
  deserializeMap (Some m) ∅ = (m, None).
Proof.
  destruct (deserializeMap_cases (Some m) (∅ : gmap string T))
    as [[Hnone _]|[(t & _ & (k & _ & Hk) & _)|(t & [= <-] & _ & ->)]].
  - done.
  - rewrite lookup_empty in Hk. by destruct Hk.
  - unfold mapsCopy. by rewrite (right_id_L ∅ (∪)).
Qed.

Lemma loadItem_paths st pf m :
  UUID pf = PreviousPathFileName → decodeFolders pf = Some m →
  prevFolders st = ∅ →
  loadItem st pf = Ok {| prevDeltas := prevDeltas st; prevFolders := m |}.
Proof.
  intros Hpf Hdec Hempty. unfold loadItem.
  rewrite (decide_True _ _ Hpf). by rewrite Hdec, Hempty, deserializeMap_into_empty.
Qed.

Lemma loadItem_deltas st df m :
  UUID df ≠ PreviousPathFileName → UUID df = DeltaURLsFileName →
  decodeDeltas df = Some m → prevDeltas st = ∅ →
  loadItem st df = Ok {| prevDeltas := m; prevFolders := prevFolders st |}.
Proof.
  intros Hdf' Hdf Hdec Hempty. unfold loadItem.
  rewrite (decide_False _ _ Hdf'), (decide_True _ _ Hdf).
  by rewrite Hdec, Hempty, deserializeMap_into_empty.
Qed.

Lemma load_persisted (entries : MetadataEntries) (pf df : MetadataItem)
    (col : RestoreCollection) :
  PreviousPathFileName ≠ DeltaURLsFileName →
  UUID pf = PreviousPathFileName →
  decodeFolders pf = Some (persistedPaths entries) →
  UUID df = DeltaURLsFileName →
  decodeDeltas df = Some (persistedDelta entries) →
  col = [Recv pf; Recv df] ∨ col = [Recv df; Recv pf] →
  deserializeMetadata [col]
  = Ok (purgePartial {| prevDeltas := persistedDelta entries;
                        prevFolders := persistedPaths entries |}).
Proof.
  intros Hne Hpf Hpfd Hdf Hdfd Hcol.
  assert (UUID df ≠ PreviousPathFileName) as Hdf' by congruence.
  unfold deserializeMetadata.
  destruct Hcol as [-> | ->]; cbn [loadCollections loadItems].
  - rewrite (loadItem_paths {| prevDeltas := ∅; prevFolders := ∅ |} pf _ Hpf Hpfd eq_refl).
    cbn [prevDeltas].
    by rewrite (loadItem_deltas {| prevDeltas := ∅ |} df _ Hdf' Hdf Hdfd eq_refl).
  - rewrite (loadItem_deltas {| prevDeltas := ∅; prevFolders := ∅ |} df _ Hdf' Hdf Hdfd eq_refl).
    cbn [prevFolders].
    by rewrite (loadItem_paths {| prevFolders := ∅ |} pf _ Hpf Hpfd eq_refl).
Qed.

End LoadMore.

Section RoundTrip.
Context `{GraphNames} `{PathOps}.

(** X7: what [Get] persists is what the next backup loads.  When [Get]
    returns a metadata collection, and its two files are read back under
    their names with the maps they were written from, in either order,
    [deserializeMetadata] gives every delta URL that was persisted, and the
    paths of exactly the drives that have one: the paths of a drive whose
    enumeration ended without a delta URL are dropped. *)
Theorem X7_metadata_round_trip (be : Backend) (c c' : Collections)
    (prevMetadata : list RestoreCollection)
    (collections : list BackupCollection) (excl : gset string)
    (entries : MetadataEntries) (pf df : MetadataItem)
    (col : RestoreCollection) :
  Get be c prevMetadata = (c', Returned (Ok (collections, excl))) →
  MetadataCollection entries ∈ collections →
  PreviousPathFileName ≠ DeltaURLsFileName →
  UUID pf = PreviousPathFileName →
  decodeFolders pf = Some (persistedPaths entries) →
  UUID df = DeltaURLsFileName →
  decodeDeltas df = Some (persistedDelta entries) →
  col = [Recv pf; Recv df] ∨ col = [Recv df; Recv pf] →
  ∃ st, deserializeMetadata [col] = Ok st
        ∧ prevDeltas st = persistedDelta entries
        ∧ ∀ d x, prevFolders st !! d = Some x
                 ↔ persistedPaths entries !! d = Some x
                   ∧ is_Some (persistedDelta entries !! d).
Proof.
  intros Hget Hin Hne Hpf Hpfd Hdf Hdfd Hcol.
  assert (dom (persistedDelta entries) ⊆ dom (persistedPaths entries)
          ∧ ∀ d u, persistedDelta entries !! d = Some u → u ≠ "") as [Hsub Hurl].
  { revert Hget Hin. unfold Get.
    destruct (deserializeMetadata prevMetadata) as [meta|]; [|done].
    destruct (listDrives be) as [drives|]; [|done].
    destruct (getDrives be meta _ drives) as [st []] eqn:Hrun; try done.
    intros [= <- <- <-] Hin.
    assert (entries = {| persistedPaths := folderPaths st;
                         persistedDelta := deltaURLs st |}) as ->.
    { destruct (metadataCollectionError be _).
      - apply list_elem_of_fmap in Hin as (? & [=] & _).
      - apply elem_of_app in Hin as [Hin|Hin].
        + apply list_elem_of_fmap in Hin as (? & [=] & _).
        + by apply list_elem_of_singleton in Hin as [= ->]. }
    apply (getDrives_inv _ _ _ _ _ []) in Hrun as (_ & Hsub & Hurl); [done|].
    split; [|split]; simpl.
    - intros d. rewrite dom_empty_L, elem_of_empty. split; [done|].
      by intros ?%elem_of_nil.
    - by rewrite dom_empty_L.
    - intros d u. by rewrite lookup_empty. }
  eexists. split; [by apply (load_persisted entries pf df col)|]. split.
  - apply map_eq. intros d. apply option_eq. intros u.
    rewrite purgePartial_delta_iff. cbn. split; [tauto|].
    intros Hd. split; [done|]. split; [by eapply Hurl|].
    apply elem_of_dom, Hsub, elem_of_dom. eauto.
  - intros d x. rewrite purgePartial_folder_iff. cbn. split.
    + intros [Hx [v [Hv _]]]. eauto.
    + intros [Hx [v Hv]]. split; [done|]. exists v. split; [done|].
      by eapply Hurl.
Qed.

End RoundTrip.

Lemma X5_unreadable_file_skipped_witness :
  @deserializeMetadata Sample.names
    ([] ++ ([Recv (Sample.deltaFile "t0")]
            ++ Recv {| UUID := "notes"; decodeDeltas := None; decodeFolders := None |}
               :: [Recv Sample.pathsFile]) :: [])
  = @deserializeMetadata Sample.names
      ([] ++ ([Recv (Sample.deltaFile "t0")] ++ [Recv Sample.pathsFile]) :: []).
Proof.
  apply (@X5_unreadable_file_skipped Sample.names).
  left. split; by intros [=].
Defined.

Lemma X6_cancelled_load_fails_witness :
  @deserializeMetadata Sample.names
    ([] ++ ([Recv (Sample.deltaFile "t0")] ++ CtxDone :: [Recv Sample.pathsFile]) :: [])
  = Err (errWrap "deserialzing previous backup metadata" (errExternal "context")).
Proof.
  apply (@X6_cancelled_load_fails Sample.names [] [] [Recv (Sample.deltaFile "t0")]
           [Recv Sample.pathsFile] {| prevDeltas := ∅; prevFolders := ∅ |}
           {| prevDeltas := {[ "d1" := "t0" ]}; prevFolders := ∅ |});
    by vm_compute.
Defined.

Lemma X7_metadata_round_trip_witness :
  ∃ st, @deserializeMetadata Sample.names
          [ [Recv {| UUID := "previouspath"; decodeDeltas := None;
                     decodeFolders := Some {[ "d1" := {[ "folder1" := "t/onedrive/u/files/drives/d1/root:/a" ]} ]} |};
             Recv (Sample.deltaFile "t1")] ] = Ok st
        ∧ prevDeltas st = {[ "d1" := "t1" ]}
        ∧ ∀ d x, prevFolders st !! d = Some x
                 ↔ ({[ "d1" := {[ "folder1" := "t/onedrive/u/files/drives/d1/root:/a" ]} ]}
                      : gmap string (gmap string string)) !! d = Some x
                   ∧ is_Some (({[ "d1" := "t1" ]} : gmap string string) !! d).
Proof.
  exact (@X7_metadata_round_trip Sample.names Sample.stringPaths
           (Sample.backend {| URL := "t1"; Reset := false |}
              {[ "folder1" := "t/onedrive/u/files/drives/d1/root:/a" ]})
           (Sample.colls0 ∅) (Sample.colls0 ∅) Sample.previousMetadata
           [MetadataCollection
              {| persistedPaths := {[ "d1" := {[ "folder1" := "t/onedrive/u/files/drives/d1/root:/a" ]} ]};
                 persistedDelta := {[ "d1" := "t1" ]} |}]
           ∅
           {| persistedPaths := {[ "d1" := {[ "folder1" := "t/onedrive/u/files/drives/d1/root:/a" ]} ]};
              persistedDelta := {[ "d1" := "t1" ]} |}
           {| UUID := "previouspath"; decodeDeltas := None;
              decodeFolders := Some {[ "d1" := {[ "folder1" := "t/onedrive/u/files/drives/d1/root:/a" ]} ]} |}
           (Sample.deltaFile "t1")
           _
           ltac:(by vm_compute)
           ltac:(apply list_elem_of_singleton; reflexivity)
           ltac:(by intros [=])
           eq_refl eq_refl eq_refl eq_refl
           (or_introl eq_refl)).
Defined.

(** ** [updateCollectionPaths] *)
Section UpdateCollectionPathsFacts.
Context `{PathOps}.

Lemma same_but_path_refl (c : Collection) : same_but_path c c.
Proof. by repeat split. Qed.

Lemma same_but_path_SetFullPath (c : Collection) (p : option Path) :
  same_but_path c (SetFullPath c p).
Proof. by repeat split. Qed.

Lemma same_but_path_reparented ini cur (c : Collection) :
  same_but_path c (reparented ini cur c).
Proof.
  unfold reparented. destruct (FullPath c) as [cp|]; [|apply same_but_path_refl].
  destruct (PathUpdateParent cp ini cur);
    [apply same_but_path_SetFullPath | apply same_but_path_refl].
Qed.

Lemma ripple_fold_None id ini cur (l : list (string * Collection)) :
  foldl (rippleParent id ini cur) None l = None.
Proof. induction l as [|[i c] l IH]; [done|]. exact IH. Qed.

Lemma rippleParent_step id ini cur m i c m' :
  rippleParent id ini cur (Some m) (i, c) = Some m' →
  (∀ k, k ≠ i → m' !! k = m !! k)
  ∧ (i = id → m' = m)
  ∧ (i ≠ id → is_Some (FullPath c)
              ∧ (m !! i = Some c → m' !! i = Some (reparented ini cur c))).
Proof.
  unfold rippleParent, reparented.
  destruct (decide (i = id)) as [->|Hi]; [by intros [= <-]|].
  destruct (FullPath c) as [cp|]; [|done].
  destruct (PathUpdateParent cp ini cur) as [cp'|]; intros [= <-].
  - split; [by intros k Hk; rewrite lookup_insert_ne|]. split; [done|].
    intros _. split; [eauto|]. intros _. apply lookup_insert_eq.
  - split; [done|]. split; [done|]. intros _. split; [eauto|done].
Qed.

Lemma rippleParent_panics id ini cur m i c :
  rippleParent id ini cur (Some m) (i, c) = None ↔ i ≠ id ∧ FullPath c = None.
Proof.
  unfold rippleParent.
  destruct (decide (i = id)) as [->|Hi]; [split; [done|by intros [? _]]|].
  destruct (FullPath c) as [cp|]; [|done].
  destruct (PathUpdateParent cp ini cur); split; try done; by intros [_ ?].
Qed.

Lemma ripple_fold_other id ini cur l : ∀ m m' k,
  foldl (rippleParent id ini cur) (Some m) l = Some m' →
  k ∉ l.*1 → m' !! k = m !! k.
Proof.
  induction l as [|[i c] l IH]; intros m m' k; cbn [foldl].
  - by intros [= <-].
  - rewrite fmap_cons, not_elem_of_cons. cbn [fst]. intros Hrun [Hk Hl].
    destruct (rippleParent id ini cur (Some m) (i, c)) as [m1|] eqn:Hstep;
      [|by rewrite ripple_fold_None in Hrun].
    apply rippleParent_step in Hstep as (Hother & _ & _).
    rewrite (IH _ _ _ Hrun Hl). by apply Hother.
Qed.

Lemma ripple_fold_id id ini cur l : ∀ m m',
  foldl (rippleParent id ini cur) (Some m) l = Some m' → m' !! id = m !! id.
Proof.
  induction l as [|[i c] l IH]; intros m m'; cbn [foldl].
  - by intros [= <-].
  - intros Hrun.
    destruct (rippleParent id ini cur (Some m) (i, c)) as [m1|] eqn:Hstep;
      [|by rewrite ripple_fold_None in Hrun].
    apply rippleParent_step in Hstep as (Hother & Hid & _).
    rewrite (IH _ _ Hrun). destruct (decide (i = id)) as [Hi|Hi].
    + by rewrite (Hid Hi).
    + by apply Hother.
Qed.

Lemma ripple_fold_entry id ini cur l : ∀ m m' k c,
  NoDup l.*1 → (k, c) ∈ l → k ≠ id → m !! k = Some c →
  foldl (rippleParent id ini cur) (Some m) l = Some m' →
  is_Some (FullPath c) ∧ m' !! k = Some (reparented ini cur c).
Proof.
  induction l as [|[i c0] l IH]; intros m m' k c Hnd Hin Hk Hm; cbn [foldl].
  - by apply elem_of_nil in Hin.
  - rewrite fmap_cons in Hnd. cbn [fst] in Hnd. apply NoDup_cons in Hnd as [Hi Hnd].
    intros Hrun.
    destruct (rippleParent id ini cur (Some m) (i, c0)) as [m1|] eqn:Hstep;
      [|by rewrite ripple_fold_None in Hrun].
    apply rippleParent_step in Hstep as (Hother & _ & Hent).
    apply elem_of_cons in Hin as [[= -> ->]|Hin].
    + destruct (Hent Hk) as [Hfp Hnew]. split; [done|].
      rewrite (ripple_fold_other _ _ _ _ _ _ _ Hrun Hi). by apply Hnew.
    + apply (IH m1 m' k c); try done.
      rewrite Hother; [done|]. intros ->. apply Hi.
      apply list_elem_of_fmap. by exists (i, c).
Qed.

Lemma ripple_fold_panics id ini cur l : ∀ m,
  foldl (rippleParent id ini cur) (Some m) l = None
  ↔ ∃ k c, (k, c) ∈ l ∧ k ≠ id ∧ FullPath c = None.
Proof.
  induction l as [|[i c0] l IH]; intros m; cbn [foldl].
  - split; [done|]. intros (k & c & Hin & _). by apply elem_of_nil in Hin.
  - destruct (rippleParent id ini cur (Some m) (i, c0)) as [m1|] eqn:Hstep.
    + rewrite IH. split.
      * intros (k & c & Hin & Hk). exists k, c. split; [|done].
        apply elem_of_cons. by right.
      * intros (k & c & Hin & Hk & Hfp).
        apply elem_of_cons in Hin as [[= -> ->]|Hin]; [|by eauto].
        assert (rippleParent id ini cur (Some m) (i, c0) = None) as Hp
          by (by apply rippleParent_panics).
        congruence.
    + rewrite ripple_fold_None. split; [|done]. intros _.
      apply rippleParent_panics in Hstep. exists i, c0. split; [|done].
      apply elem_of_cons. by left.
Qed.

(** The three ways [updateCollectionPaths] goes when it does not panic. *)
Lemma updateCollectionPaths_cases id cmap curPath cmap' found :
  updateCollectionPaths id cmap curPath = Some (cmap', found) →
  (cmap !! id = None ∧ found = false ∧ cmap' = cmap)
  ∨ (∃ ocol ini, cmap !! id = Some ocol ∧ FullPath ocol = Some ini
       ∧ PathString ini = PathString curPath ∧ found = true ∧ cmap' = cmap)
  ∨ (∃ ocol ini, cmap !! id = Some ocol ∧ FullPath ocol = Some ini
       ∧ PathString ini ≠ PathString curPath ∧ found = true
       ∧ cmap' !! id = Some (SetFullPath ocol (Some curPath))
       ∧ ∀ k c, k ≠ id → cmap !! k = Some c →
                is_Some (FullPath c)
                ∧ cmap' !! k = Some (reparented ini curPath c))
     ∧ ∀ k, cmap !! k = None → cmap' !! k = None.
Proof.
  unfold updateCollectionPaths.
  destruct (cmap !! id) as [ocol|] eqn:Hid; [|intros [= <- <-]; by left].
  destruct (FullPath ocol) as [ini|] eqn:Hfp; [|done].
  destruct (decide (PathString ini = PathString curPath)) as [Heq|Hne].
  { intros [= <- <-]. right. left. by exists ocol, ini. }
  destruct (foldl _ _ _) as [cmap2|] eqn:Hrun; [|done].
  intros [= <- <-]. right. right. split.
  - exists ocol, ini. split; [done|]. split; [done|]. split; [done|].
    split; [done|]. split.
    + rewrite (ripple_fold_id _ _ _ _ _ _ Hrun). apply lookup_insert_eq.
    + intros k c Hk Hc.
      apply (ripple_fold_entry _ _ _ _ _ _ k c (NoDup_fst_map_to_list _)) in Hrun;
        [done| |done|by rewrite lookup_insert_ne].
      apply elem_of_map_to_list. by rewrite lookup_insert_ne.
  - intros k Hk. rewrite (ripple_fold_other _ _ _ _ _ _ k Hrun).
    + rewrite lookup_insert_ne; [done|]. intros <-. congruence.
    + intros Hin. apply list_elem_of_fmap in Hin as ([k' c] & -> & Hin).
      apply elem_of_map_to_list in Hin. cbn in Hin, Hk.
      destruct (decide (k' = id)) as [->|Hk']; [congruence|].
      rewrite lookup_insert_ne in Hin by done. congruence.
Qed.

(** X8: when [updateCollectionPaths] returns, [found] tells whether the
    map had a collection under [id]; the map has the same keys as before;
    every collection keeps its items, drive, previous path and merge flag;
    and the collection under [id], if any, has a full path that prints as
    [curPath].  Without a collection under [id] nothing changes. *)
Theorem X8_updateCollectionPaths_keeps (id : string)
    (cmap cmap' : gmap string Collection) (curPath : Path) (found : bool) :
  updateCollectionPaths id cmap curPath = Some (cmap', found) →
  (found = true ↔ is_Some (cmap !! id))
  ∧ (found = false → cmap' = cmap)
  ∧ dom cmap' = dom cmap
  ∧ (∀ k c, cmap !! k = Some c →
            ∃ c', cmap' !! k = Some c' ∧ same_but_path c c')
  ∧ (∀ c', cmap' !! id = Some c' →
           ∃ fp, FullPath c' = Some fp ∧ PathString fp = PathString curPath).
Proof.
  intros Hrun.
  apply updateCollectionPaths_cases in Hrun
    as [(Hid & -> & ->)|[(ocol & ini & Hid & Hfp & Heq & -> & ->)
                        |[(ocol & ini & Hid & Hfp & Hne & -> & Hnew & Hrest) Habs]]].
  - split; [rewrite Hid; split; [done|by intros [? ?]]|]. split; [done|].
    split; [done|]. split; [|intros c' Hc'; congruence].
    intros k c Hc. exists c. split; [done|apply same_but_path_refl].
  - split; [rewrite Hid; split; eauto|]. split; [done|]. split; [done|]. split.
    + intros k c Hc. exists c. split; [done|apply same_but_path_refl].
    + intros c' Hc'. exists ini. split; [congruence|done].
  - split; [rewrite Hid; split; eauto|]. split; [done|]. split; [|split].
    + apply set_eq. intros k. rewrite !elem_of_dom.
      destruct (cmap !! k) as [c|] eqn:Hc.
      * destruct (decide (k = id)) as [->|Hk]; [rewrite Hnew; split; eauto|].
        destruct (Hrest k c Hk Hc) as [_ ->]. split; eauto.
      * rewrite (Habs k Hc). done.
    + intros k c Hc. destruct (decide (k = id)) as [->|Hk].
      * exists (SetFullPath ocol (Some curPath)). split; [done|].
        assert (c = ocol) as -> by congruence. apply same_but_path_SetFullPath.
      * destruct (Hrest k c Hk Hc) as [_ Hk']. eexists. split; [exact Hk'|].
        apply same_but_path_reparented.
    + intros c' Hc'. rewrite Hnew in Hc'. injection Hc' as <-.
      by exists curPath.
Qed.

(** X9: a move ripples to the descendants.  When the collection under
    [id] had a full path that prints differently from [curPath], it gets
    [curPath], and every other collection has its full path passed through
    [UpdateParent(old full path, curPath)], being set again when that
    reports a change; when the paths print the same, the map is left as it
    was. *)
Theorem X9_updateCollectionPaths_ripples (id : string)
    (cmap cmap' : gmap string Collection) (curPath ini : Path)
    (ocol : Collection) (found : bool) :
  updateCollectionPaths id cmap curPath = Some (cmap', found) →
  cmap !! id = Some ocol →
  FullPath ocol = Some ini →
  (PathString ini = PathString curPath → cmap' = cmap)
  ∧ (PathString ini ≠ PathString curPath →
     cmap' !! id = Some (SetFullPath ocol (Some curPath))
     ∧ ∀ k c, k ≠ id → cmap !! k = Some c →
              cmap' !! k = Some (reparented ini curPath c)).
Proof.
  intros Hrun Hid Hfp.
  apply updateCollectionPaths_cases in Hrun
    as [(Hid' & _)|[(ocol' & ini' & Hid' & Hfp' & Heq & _ & ->)
                   |[(ocol' & ini' & Hid' & Hfp' & Hne & _ & Hnew & Hrest) _]]].
  - congruence.
  - assert (ocol' = ocol) as -> by congruence.
    assert (ini' = ini) as -> by congruence.
    split; [done|]. intros Hne. by destruct Hne.
  - assert (ocol' = ocol) as -> by congruence.
    assert (ini' = ini) as -> by congruence.
    split; [intros Heq; by destruct Hne|]. intros _. split; [done|].
    intros k c Hk Hc. by destruct (Hrest k c Hk Hc).
Qed.

(** X10: [updateCollectionPaths] panics exactly when the collection under
    [id] has no full path, or when it is to get a path that prints
    differently and some other collection of the map has no full path (a
    collection of a deleted folder): [String] or [UpdateParent] is then
    called on a nil path. *)
Theorem X10_updateCollectionPaths_panics (id : string)
    (cmap : gmap string Collection) (curPath : Path) :
  updateCollectionPaths id cmap curPath = None
  ↔ ∃ ocol, cmap !! id = Some ocol
      ∧ (FullPath ocol = None
         ∨ ∃ ini, FullPath ocol = Some ini
             ∧ PathString ini ≠ PathString curPath
             ∧ ∃ k c, k ≠ id ∧ cmap !! k = Some c ∧ FullPath c = None).
Proof.
  unfold updateCollectionPaths.
  destruct (cmap !! id) as [ocol|] eqn:Hid;
    [|split; [done|by intros (? & ? & _)]].
  destruct (FullPath ocol) as [ini|] eqn:Hfp.
  2:{ split; [|done]. intros _. exists ocol. split; [done|by left]. }
  destruct (decide (PathString ini = PathString curPath)) as [Heq|Hne].
  { split; [done|]. intros (o & Ho & Hor). injection Ho as <-.
    destruct Hor as [Hn|(i & Hi & Hne & _)]; congruence. }
  destruct (foldl _ _ _) as [cmap2|] eqn:Hrun.
  - split; [done|]. intros (o & Ho & Hor). injection Ho as <-.
    destruct Hor as [Hn|(i & _ & _ & k & c & Hk & Hc & Hnone)]; [congruence|].
    assert (foldl (rippleParent id ini curPath)
              (Some (<[id := SetFullPath ocol (Some curPath)]> cmap))
              (map_to_list (<[id := SetFullPath ocol (Some curPath)]> cmap)) = None)
      as Hp; [|congruence].
    apply ripple_fold_panics. exists k, c. split; [|done].
    apply elem_of_map_to_list. by rewrite lookup_insert_ne.
  - split; [|done]. intros _. exists ocol. split; [done|]. right.
    exists ini. split; [done|]. split; [done|].
    apply ripple_fold_panics in Hrun as (k & c & Hin & Hk & Hnone).
    apply elem_of_map_to_list in Hin. rewrite lookup_insert_ne in Hin by done.
    by exists k, c.
Qed.

End UpdateCollectionPathsFacts.

Lemma X8_updateCollectionPaths_keeps_witness :
  let r := @updateCollectionPaths Sample.stringPaths "A" Sample.nested
             (Sample.rootPath +:+ "/A2") in
  let cmap' := (default (∅, false) r).1 in
  r = Some (cmap', true) ∧ dom cmap' = dom Sample.nested.
Proof.
  intros r cmap'.
  assert (Hrun : r = Some (cmap', true)) by (by vm_compute).
  split; [exact Hrun|].
  by destruct (@X8_updateCollectionPaths_keeps Sample.stringPaths "A"
                 Sample.nested cmap' (Sample.rootPath +:+ "/A2") true Hrun)
    as (_ & _ & Hdom & _).
Defined.

Lemma X9_updateCollectionPaths_ripples_witness :
  let r := @updateCollectionPaths Sample.stringPaths "A" Sample.nested
             (Sample.rootPath +:+ "/A2") in
  let cmap' := (default (∅, false) r).1 in
  r = Some (cmap', true)
  ∧ @FullPath Sample.stringPaths <$> cmap' !! "B"
    = Some (Some "t/onedrive/u/files/drives/d1/root:/A2/B").
Proof.
  intros r cmap'.
  assert (Hrun : r = Some (cmap', true)) by (by vm_compute).
  split; [exact Hrun|].
  destruct (@X9_updateCollectionPaths_ripples Sample.stringPaths "A"
              Sample.nested cmap' (Sample.rootPath +:+ "/A2")
              (Sample.rootPath +:+ "/A")
              (Sample.collectionAt (Sample.rootPath +:+ "/A") []) true Hrun)
    as [_ Hmove]; [by vm_compute|by vm_compute|].
  destruct (Hmove ltac:(by intros [=])) as [_ Hrest].
  rewrite (Hrest "B" (Sample.collectionAt (Sample.rootPath +:+ "/A/B") []));
    [by vm_compute|by intros [=]|by vm_compute].
Defined.

(** ** What a whole run of [UpdateCollections] keeps *)
Section RunFacts.
Context `{PathOps}.

Lemma evolves_trans inv (a b c : Collections) :
  evolves inv a b → evolves inv b c → evolves inv a c.
Proof.
  intros Hab Hbc. induction Hbc; [done|..].
  - by apply evolves_counts.
  - by apply evolves_new.
  - by eapply evolves_add.
  - by eapply evolves_remove.
  - by eapply evolves_paths.
Qed.

Lemma resolveItem_Early driveID' driveName oldPaths st item st' f :
  resolveItem driveID' driveName oldPaths st item = Early st' f →
  colls st' = colls st ∧ excluded st' = excluded st
  ∧ itemCollection st' = itemCollection st.
Proof.
  unfold resolveItem. intros Hr.
  repeat case_match; simplify_eq; done.
Qed.

Lemma folderCase_evolves driveID' oldPaths inv st item ip :
  evolves inv (colls st) (colls (folderCase driveID' oldPaths inv st item ip).1)
  ∧ excluded (folderCase driveID' oldPaths inv st item ip).1 = excluded st
  ∧ itemCollection (folderCase driveID' oldPaths inv st item ip).1
    = itemCollection st.
Proof.
  unfold folderCase. cbv zeta.
  repeat (first [ progress cbn [fst snd colls excluded itemCollection setColls
                                setNewPaths]
                | case_match ]);
    (split; [|done]);
    repeat first
      [ apply evolves_refl
      | apply evolves_counts; [|lia|lia|lia]
      | eapply evolves_add; [| eassumption | eassumption]
      | apply evolves_new
      | apply (evolves_new _ _ (setCollectionMap _ _))
      | eapply evolves_paths; [| eassumption] ].
Qed.

Lemma fileCase_evolves driveID' oldPaths inv st item cid cp :
  evolves inv (colls st)
    (colls (fileCase driveID' oldPaths inv st item cid cp).1).
Proof.
  unfold fileCase. cbv zeta.
  destruct (negb inv && itemFile item);
    repeat (first [ progress cbn [fst snd colls excluded itemCollection setColls
                                  setExcluded setItemCollection]
                  | case_match ]);
    simplify_eq;
    repeat first
      [ apply evolves_refl
      | apply evolves_counts; [|lia|lia|lia]
      | eapply evolves_add; [| eassumption | eassumption]
      | eapply evolves_remove; [| eassumption | eassumption]
      | apply evolves_new
      | apply (evolves_new _ _ (setCollectionMap _ _))
      | eapply evolves_paths; [| eassumption] ].
Qed.

Lemma fileCase_excluded driveID' oldPaths inv st item cid cp :
  excluded (fileCase driveID' oldPaths inv st item cid cp).1
  = if negb inv && itemFile item
    then {[ itemId item +:+ MetaFileSuffix ]}
           ∪ ({[ itemId item +:+ DataFileSuffix ]} ∪ excluded st)
    else excluded st.
Proof.
  unfold fileCase. cbv zeta.
  destruct (negb inv && itemFile item);
    repeat (first [ progress cbn [fst snd colls excluded itemCollection setColls
                                  setExcluded setItemCollection]
                  | case_match ]); done.
Qed.

Lemma updateItem_evolves driveID' driveName oldPaths inv st item :
  evolves inv (colls st)
    (colls (updateItem driveID' driveName oldPaths inv st item).1).
Proof.
  unfold updateItem.
  destruct (resolveItem driveID' driveName oldPaths st item)
    as [st' f|cid cp ip] eqn:Hr.
  - apply resolveItem_Early in Hr as (Hc & _). cbn [fst]. rewrite Hc.
    apply evolves_refl.
  - unfold classifyItem. destruct (itemFolder item || itemPackage item).
    + apply folderCase_evolves.
    + destruct (itemFile item); [apply fileCase_evolves|apply evolves_refl].
Qed.

Lemma updateItem_excluded driveID' driveName oldPaths inv st item :
  excluded (updateItem driveID' driveName oldPaths inv st item).1 = excluded st
  ∨ (inv = false ∧ itemFile item = true
     ∧ excluded (updateItem driveID' driveName oldPaths inv st item).1
       = {[ itemId item +:+ MetaFileSuffix ]}
           ∪ ({[ itemId item +:+ DataFileSuffix ]} ∪ excluded st)).
Proof.
  unfold updateItem.
  destruct (resolveItem driveID' driveName oldPaths st item)
    as [st' f|cid cp ip] eqn:Hr.
  - apply resolveItem_Early in Hr as (_ & He & _). cbn [fst]. by left.
  - unfold classifyItem. destruct (itemFolder item || itemPackage item).
    + left. apply folderCase_evolves.
    + destruct (itemFile item) eqn:Hfile; [|by left].
      rewrite fileCase_excluded, Hfile. destruct inv; [by left|by right].
Qed.

Lemma UpdateCollections_evolves driveID' driveName items oldPaths inv : ∀ st,
  evolves inv (colls st)
    (colls (UpdateCollections driveID' driveName items oldPaths inv st).1).
Proof.
  induction items as [|item items IH]; intros st; cbn [UpdateCollections].
  - apply evolves_refl.
  - pose proof (updateItem_evolves driveID' driveName oldPaths inv st item) as Hev.
    destruct (updateItem driveID' driveName oldPaths inv st item) as [st' []];
      try done.
    eapply evolves_trans; [exact Hev|apply IH].
Qed.

Lemma updateCollectionPaths_dom id (cmap cmap' : gmap string Collection)
    curPath found :
  updateCollectionPaths id cmap curPath = Some (cmap', found) →
  dom cmap' = dom cmap.
Proof.
  intros Hpaths.
  apply updateCollectionPaths_cases in Hpaths
    as [(_ & _ & ->)|[(? & ? & _ & _ & _ & _ & ->)
                     |[(ocol & ini & Hid & _ & _ & _ & Hnew & Hrest) Habs]]];
    [done|done|].
  apply set_eq. intros k. rewrite !elem_of_dom.
  destruct (cmap !! k) as [c0|] eqn:Hc.
  - destruct (decide (k = id)) as [->|Hk]; [rewrite Hnew; split; eauto|].
    destruct (Hrest k c0 Hk Hc) as [_ ->]. split; eauto.
  - by rewrite (Habs k Hc).
Qed.

Lemma evolves_keeps inv (c c' : Collections) :
  evolves inv c c' →
  dom (CollectionMap c) ⊆ dom (CollectionMap c')
  ∧ (NumItems c ≤ NumItems c')%Z ∧ (NumFiles c ≤ NumFiles c')%Z
  ∧ (NumContainers c ≤ NumContainers c')%Z
  ∧ tenant c' = tenant c ∧ resourceOwner c' = resourceOwner c
  ∧ source c' = source c ∧ matcher c' = matcher c.
Proof.
  induction 1 as [|c' i f n _ IH|c' id folder prev drive _ IH
                  |c' id col item col' isNew _ IH _ _
                  |c' id col item col' wasThere _ IH _ _
                  |c' id curPath cmap found _ IH Hpaths];
    try destruct IH as (Hdom & Hi & Hf & Hn & Ht & Hr & Hs & Hm); cbn.
  - repeat split; done || lia.
  - repeat split; done || lia.
  - repeat split; try done. rewrite dom_insert_L.
    intros k Hk. apply elem_of_union. right. by apply Hdom.
  - repeat split; try done. rewrite dom_insert_L.
    intros k Hk. apply elem_of_union. right. by apply Hdom.
  - repeat split; try done. rewrite dom_insert_L.
    intros k Hk. apply elem_of_union. right. by apply Hdom.
  - repeat split; try done.
    by rewrite (updateCollectionPaths_dom _ _ _ _ _ Hpaths).
Qed.

(** X11: over a whole run of [UpdateCollections] the set of excluded items
    only grows; every name added is the id of a file item of the batch
    followed by [.meta] or [.data]; and when the previous delta is invalid
    the set is left exactly as it was, however the run ends. *)
Theorem X11_run_exclusions (driveID' driveName : string)
    (items : list DriveItem) (oldPaths : gmap string string)
    (invalidPrevDelta : bool) (st : UpdateState) :
  let st' := (UpdateCollections driveID' driveName items oldPaths
                invalidPrevDelta st).1 in
  excluded st ⊆ excluded st'
  ∧ (∀ x, x ∈ excluded st' →
          x ∈ excluded st
          ∨ ∃ item, item ∈ items ∧ itemFile item = true
                    ∧ (x = itemId item +:+ MetaFileSuffix
                       ∨ x = itemId item +:+ DataFileSuffix))
  ∧ (invalidPrevDelta = true → excluded st' = excluded st).
Proof.
  revert st. induction items as [|item items IH]; intros st; cbn [UpdateCollections].
  - cbn. split; [done|]. split; [by left|done].
  - pose proof (updateItem_excluded driveID' driveName oldPaths invalidPrevDelta
                  st item) as Hex.
    assert (excluded st ⊆ excluded (updateItem driveID' driveName oldPaths
                                      invalidPrevDelta st item).1
            ∧ (∀ x, x ∈ excluded (updateItem driveID' driveName oldPaths
                                    invalidPrevDelta st item).1 →
                    x ∈ excluded st
                    ∨ (itemFile item = true
                       ∧ (x = itemId item +:+ MetaFileSuffix
                          ∨ x = itemId item +:+ DataFileSuffix)))
            ∧ (invalidPrevDelta = true →
               excluded (updateItem driveID' driveName oldPaths
                           invalidPrevDelta st item).1 = excluded st))
      as (Hsub & Hnew & Hinv).
    { destruct Hex as [->|(-> & Hfile & ->)]; [split; [done|split; [by left|done]]|].
      split; [|split; [|done]].
      - intros x Hx. apply elem_of_union. right. apply elem_of_union. by right.
      - intros x Hx. apply elem_of_union in Hx as [Hx|Hx].
        + apply elem_of_singleton in Hx. right. split; [done|by left].
        + apply elem_of_union in Hx as [Hx|Hx]; [|by left].
          apply elem_of_singleton in Hx. right. split; [done|by right]. }
    destruct (updateItem driveID' driveName oldPaths invalidPrevDelta st item)
      as [st1 f] eqn:Hstep. cbn [fst] in Hsub, Hnew, Hinv.
    assert (∀ x, x ∈ excluded st1 →
              x ∈ excluded st
              ∨ ∃ it, it ∈ item :: items ∧ itemFile it = true
                      ∧ (x = itemId it +:+ MetaFileSuffix
                         ∨ x = itemId it +:+ DataFileSuffix)) as Hnew'.
    { intros x Hx. destruct (Hnew x Hx) as [?|[? ?]]; [by left|].
      right. exists item. split; [apply elem_of_cons; by left|done]. }
    destruct f; [|done|done].
    destruct (IH st1) as (IHsub & IHnew & IHinv). split; [|split].
    + intros x Hx. by apply IHsub, Hsub.
    + intros x Hx. destruct (IHnew x Hx) as [Hx1|(it & Hit & Hrest)].
      * by apply Hnew'.
      * right. exists it. split; [apply elem_of_cons; by right|done].
    + intros Hi. by rewrite (IHinv Hi), (Hinv Hi).
Qed.

(** X12: a run of [UpdateCollections] never takes a collection out of the
    map (a deleted folder gets a collection of its own instead), never
    lowers a counter, and leaves the tenant, resource owner, source and
    matcher of the receiver as they were, however the run ends. *)
Theorem X12_run_keeps_collections (driveID' driveName : string)
    (items : list DriveItem) (oldPaths : gmap string string)
    (invalidPrevDelta : bool) (st : UpdateState) :
  let c := colls st in
  let c' := colls (UpdateCollections driveID' driveName items oldPaths
                     invalidPrevDelta st).1 in
  dom (CollectionMap c) ⊆ dom (CollectionMap c')
  ∧ (NumItems c ≤ NumItems c')%Z ∧ (NumFiles c ≤ NumFiles c')%Z
  ∧ (NumContainers c ≤ NumContainers c')%Z
  ∧ tenant c' = tenant c ∧ resourceOwner c' = resourceOwner c
  ∧ source c' = source c ∧ matcher c' = matcher c.
Proof. cbv zeta. eapply evolves_keeps, UpdateCollections_evolves. Qed.

End RunFacts.

Section RunInvariants.
Context `{PathOps}.

Lemma state_consistent_setDriveItems (c : Collection) items :
  state_consistent c → state_consistent (setDriveItems c items).
Proof. done. Qed.

Lemma state_consistent_reparented ini cur (c : Collection) :
  state_consistent c → state_consistent (reparented ini cur c).
Proof.
  unfold reparented. destruct (FullPath c) as [cp|]; [|done].
  by destruct (PathUpdateParent cp ini cur).
Qed.

Lemma Add_fst (col : Collection) item col' isNew :
  Add col item = (col', isNew) →
  col' = setDriveItems col (<[itemId item := item]> (driveItems col)).
Proof. unfold Add. by intros [= <- _]. Qed.

Lemma Remove_fst (col : Collection) item col' wasThere :
  Remove col item = (col', wasThere) →
  col' = col ∨ col' = setDriveItems col (delete (itemId item) (driveItems col)).
Proof.
  destruct (Remove_cases col item) as [[_ ->]|[_ ->]]; intros [= <- _]; eauto.
Qed.

Lemma evolves_state_consistent inv (c c' : Collections) :
  evolves inv c c' →
  (∀ k c0, CollectionMap c !! k = Some c0 → state_consistent c0) →
  ∀ k c0, CollectionMap c' !! k = Some c0 → state_consistent c0.
Proof.
  intros Hev Hc.
  induction Hev as [|c' i f n _ IH|c' id folder prev drive _ IH
                    |c' id col item col' isNew _ IH Hcol Hadd
                    |c' id col item col' wasThere _ IH Hcol Hrem
                    |c' id curPath cmap found _ IH Hpaths];
    [done|done|..]; intros k c0; cbn.
  - destruct (decide (k = id)) as [->|Hk].
    + rewrite lookup_insert_eq. by intros [= <-].
    + rewrite lookup_insert_ne by done. apply IH.
  - destruct (decide (k = id)) as [->|Hk].
    + rewrite lookup_insert_eq. intros [= <-].
      rewrite (Add_fst _ _ _ _ Hadd). apply state_consistent_setDriveItems.
      by apply (IH id).
    + rewrite lookup_insert_ne by done. apply IH.
  - destruct (decide (k = id)) as [->|Hk].
    + rewrite lookup_insert_eq. intros [= <-].
      destruct (Remove_fst _ _ _ _ Hrem) as [->| ->]; [by apply (IH id)|].
      apply state_consistent_setDriveItems. by apply (IH id).
    + rewrite lookup_insert_ne by done. apply IH.
  - intros Hk.
    apply updateCollectionPaths_cases in Hpaths
      as [(_ & _ & ->)|[(? & ? & _ & _ & _ & _ & ->)
                       |[(ocol & ini & Hid & _ & _ & _ & Hnew & Hrest) Habs]]];
      [by apply (IH k)|by apply (IH k)|].
    destruct (decide (k = id)) as [->|Hne].
    + rewrite Hnew in Hk. by injection Hk as <-.
    + destruct (CollectionMap c' !! k) as [c1|] eqn:Hc1.
      * destruct (Hrest k c1 Hne Hc1) as [_ Hk']. rewrite Hk' in Hk.
        injection Hk as <-. apply state_consistent_reparented. by apply (IH k).
      * rewrite (Habs k Hc1) in Hk. done.
Qed.

Lemma evolves_flags inv (c c' : Collections) :
  evolves inv c c' →
  ∀ k c0, CollectionMap c' !! k = Some c0 →
    doNotMergeItems c0 = inv
    ∨ ∃ c1, CollectionMap c !! k = Some c1
            ∧ doNotMergeItems c0 = doNotMergeItems c1.
Proof.
  induction 1 as [|c' i f n _ IH|c' id folder prev drive _ IH
                  |c' id col item col' isNew _ IH Hcol Hadd
                  |c' id col item col' wasThere _ IH Hcol Hrem
                  |c' id curPath cmap found _ IH Hpaths];
    intros k c0; cbn.
  - intros Hk. right. by exists c0.
  - apply IH.
  - destruct (decide (k = id)) as [->|Hk].
    + rewrite lookup_insert_eq. intros [= <-]. by left.
    + rewrite lookup_insert_ne by done. apply IH.
  - destruct (decide (k = id)) as [->|Hk].
    + rewrite lookup_insert_eq. intros [= <-].
      rewrite (Add_fst _ _ _ _ Hadd). apply (IH id col Hcol).
    + rewrite lookup_insert_ne by done. apply IH.
  - destruct (decide (k = id)) as [->|Hk].
    + rewrite lookup_insert_eq. intros [= <-].
      destruct (Remove_fst _ _ _ _ Hrem) as [->| ->]; apply (IH id col Hcol).
    + rewrite lookup_insert_ne by done. apply IH.
  - intros Hk.
    apply updateCollectionPaths_cases in Hpaths
      as [(_ & _ & ->)|[(? & ? & _ & _ & _ & _ & ->)
                       |[(ocol & ini & Hid & _ & _ & _ & Hnew & Hrest) Habs]]];
      [by apply IH|by apply IH|].
    destruct (decide (k = id)) as [->|Hne].
    + rewrite Hnew in Hk. injection Hk as <-. apply (IH id ocol Hid).
    + destruct (CollectionMap c' !! k) as [c1|] eqn:Hc1.
      * destruct (Hrest k c1 Hne Hc1) as [_ Hk']. rewrite Hk' in Hk.
        injection Hk as <-.
        destruct (same_but_path_reparented ini curPath c1) as (_ & _ & _ & _ & ->).
        apply (IH k c1 Hc1).
      * rewrite (Habs k Hc1) in Hk. done.
Qed.

(** X13: the state of a collection goes with its paths throughout a run.
    If every collection of the map has the state [data.StateOf] gives for
    its previous and full paths when [UpdateCollections] is called, so has
    every collection of the map when the call ends, however it ends: the
    collections it makes, the ones it moves and the ones a move ripples
    to. *)
Theorem X13_run_state_consistent (driveID' driveName : string)
    (items : list DriveItem) (oldPaths : gmap string string)
    (invalidPrevDelta : bool) (st : UpdateState) :
  (∀ k c, CollectionMap (colls st) !! k = Some c → state_consistent c) →
  ∀ k c',
    CollectionMap (colls (UpdateCollections driveID' driveName items oldPaths
                            invalidPrevDelta st).1) !! k = Some c' →
    state_consistent c'.
Proof.
  intros Hst. eapply evolves_state_consistent; [|exact Hst].
  apply UpdateCollections_evolves.
Qed.

(** X14: the merge flag of a collection is set once.  After a run of
    [UpdateCollections] every collection of the map either has
    [doNotMergeItems] equal to the [invalidPrevDelta] of the call, or was
    under the same key before the call with the flag it has now; so from
    an empty map every collection carries [invalidPrevDelta]. *)
Theorem X14_run_merge_flags (driveID' driveName : string)
    (items : list DriveItem) (oldPaths : gmap string string)
    (invalidPrevDelta : bool) (st : UpdateState) (k : string) (c' : Collection) :
  CollectionMap (colls (UpdateCollections driveID' driveName items oldPaths
                          invalidPrevDelta st).1) !! k = Some c' →
  (doNotMergeItems c' = invalidPrevDelta
   ∨ ∃ c, CollectionMap (colls st) !! k = Some c
          ∧ doNotMergeItems c' = doNotMergeItems c)
  ∧ (CollectionMap (colls st) = ∅ → doNotMergeItems c' = invalidPrevDelta).
Proof.
  intros Hk.
  destruct (evolves_flags _ _ _
              (UpdateCollections_evolves driveID' driveName items oldPaths
                 invalidPrevDelta st) k c' Hk) as [Hf|(c & Hc & Hf)].
  - split; [by left|done].
  - split; [right; by exists c|]. intros Hempty.
    rewrite Hempty, lookup_empty in Hc. done.
Qed.

End RunInvariants.

Lemma X13_run_state_consistent_witness :
  ∃ c', @CollectionMap Sample.stringPaths
          (colls (@UpdateCollections Sample.stringPaths "d1" "drive"
                    [Sample.renamedA; Sample.changedFile] Sample.knownPaths false
                    Sample.incremental).1) !! "A" = Some c'
        ∧ @state_consistent Sample.stringPaths c'.
Proof.
  eexists. split; [by vm_compute|].
  apply (@X13_run_state_consistent Sample.stringPaths "d1" "drive"
           [Sample.renamedA; Sample.changedFile] Sample.knownPaths false
           Sample.incremental
           ltac:(intros k c; vm_compute; intros [=]) "A").
  by vm_compute.
Defined.

Lemma X14_run_merge_flags_witness :
  ∃ c', @CollectionMap Sample.stringPaths
          (colls (@UpdateCollections Sample.stringPaths "d1" "drive"
                    [Sample.renamedA; Sample.changedFile] Sample.knownPaths true
                    Sample.incremental).1) !! "A" = Some c'
        ∧ @doNotMergeItems Sample.stringPaths c' = true.
Proof.
  eexists (default (Sample.collectionAt "" []) _).
  assert (Hk : @CollectionMap Sample.stringPaths
          (colls (@UpdateCollections Sample.stringPaths "d1" "drive"
                    [Sample.renamedA; Sample.changedFile] Sample.knownPaths true
                    Sample.incremental).1) !! "A"
          = Some (default (Sample.collectionAt "" [])
                    (@CollectionMap Sample.stringPaths
          (colls (@UpdateCollections Sample.stringPaths "d1" "drive"
                    [Sample.renamedA; Sample.changedFile] Sample.knownPaths true
                    Sample.incremental).1) !! "A"))) by (by vm_compute).
  split; [exact Hk|].
  apply (proj2 (@X14_run_merge_flags Sample.stringPaths _ _ _ _ _ _ _ _ Hk)).
  by vm_compute.
Defined.

(** ** Single events of [UpdateCollections] *)
Section Events.
Context `{PathOps}.

Lemma resolveItem_deleted driveID' driveName oldPaths st item ref cid :
  itemRoot item = false → itemDeleted item = true →
  itemParentReference item = Some ref → refId ref = Some cid →
  resolveItem driveID' driveName oldPaths st item
  = match oldPaths !! cid with
    | None => Early st Continue
    | Some pathStr =>
        match GetCanonicalPath pathStr (tenant (colls st))
                (resourceOwner (colls st)) (source (colls st)) with
        | Err e => Early st (Return e)
        | Ok cp => Resolved cid cp None
        end
    end.
Proof.
  intros Hroot Hdel Href Hid. unfold resolveItem.
  rewrite Hroot, Href, Hid, Hdel. cbn.
  destruct (oldPaths !! cid) as [pathStr|]; [|done].
  by destruct (GetCanonicalPath pathStr _ _ _).
Qed.

(** X15: a delete event for a folder (or package).  When the parent of the
    folder is not in [oldPaths] the event is ignored.  Otherwise the folder
    is taken out of [newPaths]; if the previous backup knew the folder, a
    collection with no full path and the folder's previous path is put
    under its id, with the merge flag of the call, in place of what was
    there; if it did not, the collections are left alone.  Counters,
    exclusions and the file index do not change. *)
Theorem X15_folder_delete_event (driveID' driveName : string)
    (oldPaths : gmap string string) (invalidPrevDelta : bool)
    (st : UpdateState) (item : DriveItem) (ref : ItemReference)
    (cid : string) :
  itemRoot item = false → itemDeleted item = true →
  itemFolder item || itemPackage item = true →
  itemParentReference item = Some ref → refId ref = Some cid →
  let r := updateItem driveID' driveName oldPaths invalidPrevDelta st item in
  (oldPaths !! cid = None → r = (st, Continue))
  ∧ (∀ pathStr cp,
       oldPaths !! cid = Some pathStr →
       GetCanonicalPath pathStr (tenant (colls st)) (resourceOwner (colls st))
         (source (colls st)) = Ok cp →
       (oldPaths !! itemId item = None →
        r = (setNewPaths st (delete (itemId item) (newPaths st)), Continue))
       ∧ (∀ p prevP,
            oldPaths !! itemId item = Some p →
            FromDataLayerPath p false = Some prevP →
            r = (setColls (setNewPaths st (delete (itemId item) (newPaths st)))
                   (putCollection (colls st) (itemId item)
                      (NewCollection None (Some prevP) driveID'
                         (source (colls st)) invalidPrevDelta)),
                 Continue))).
Proof.
  intros Hroot Hdel Hfolder Href Hid r. subst r. unfold updateItem.
  rewrite (resolveItem_deleted _ _ _ _ _ _ _ Hroot Hdel Href Hid).
  destruct (oldPaths !! cid) as [pathStr|] eqn:Hparent.
  2:{ split; [done|]. intros ? ? [=]. }
  split; [done|]. intros ? cp [= <-] ->.
  unfold classifyItem, folderCase, previousPathOf. rewrite Hfolder, Hdel. cbv zeta.
  split.
  - by intros ->.
  - intros p prevP -> ->. done.
Qed.

(** X16: a delete event for a file whose parent is in [oldPaths] only
    counts the file: the item and file counters go up by one, and the
    paths, the collections and the file index are left as they were, so a
    file added to a collection earlier in the run stays in it.  When the
    parent is not in [oldPaths] the event is ignored altogether. *)
Theorem X16_file_delete_event (driveID' driveName : string)
    (oldPaths : gmap string string) (invalidPrevDelta : bool)
    (st : UpdateState) (item : DriveItem) (ref : ItemReference)
    (cid : string) :
  itemRoot item = false → itemDeleted item = true →
  itemFolder item || itemPackage item = false → itemFile item = true →
  itemParentReference item = Some ref → refId ref = Some cid →
  let r := updateItem driveID' driveName oldPaths invalidPrevDelta st item in
  (oldPaths !! cid = None → r = (st, Continue))
  ∧ (∀ pathStr cp,
       oldPaths !! cid = Some pathStr →
       GetCanonicalPath pathStr (tenant (colls st)) (resourceOwner (colls st))
         (source (colls st)) = Ok cp →
       r.2 = Continue
       ∧ newPaths r.1 = newPaths st
       ∧ itemCollection r.1 = itemCollection st
       ∧ CollectionMap (colls r.1) = CollectionMap (colls st)
       ∧ NumItems (colls r.1) = (NumItems (colls st) + 1)%Z
       ∧ NumFiles (colls r.1) = (NumFiles (colls st) + 1)%Z
       ∧ NumContainers (colls r.1) = NumContainers (colls st)).
Proof.
  intros Hroot Hdel Hfolder Hfile Href Hid r. subst r. unfold updateItem.
  rewrite (resolveItem_deleted _ _ _ _ _ _ _ Hroot Hdel Href Hid).
  destruct (oldPaths !! cid) as [pathStr|] eqn:Hparent.
  2:{ split; [done|]. intros ? ? [=]. }
  split; [done|]. intros ? cp [= <-] ->.
  unfold classifyItem, fileCase. rewrite Hfolder, Hfile, Hdel. cbv zeta.
  destruct (negb invalidPrevDelta && true); cbn; repeat split; lia.
Qed.

(** X17: an item for the drive root only records the root path.  When the
    canonical path of the drive root can be built, [newPaths] gets it
    under the item's id, whatever else the item carries, and the
    collections, counters, exclusions and file index are left as they
    were; when it cannot, the run ends with the error. *)
Theorem X17_root_event (driveID' driveName : string)
    (oldPaths : gmap string string) (invalidPrevDelta : bool)
    (st : UpdateState) (item : DriveItem) :
  itemRoot item = true →
  let r := updateItem driveID' driveName oldPaths invalidPrevDelta st item in
  match GetCanonicalPath (rootDrive driveID') (tenant (colls st))
          (resourceOwner (colls st)) (source (colls st)) with
  | Err e => r = (st, Return e)
  | Ok rootP =>
      r.2 = Continue
      ∧ newPaths r.1 !! itemId item = Some (PathString rootP)
      ∧ dom (newPaths r.1) = {[ itemId item ]} ∪ dom (newPaths st)
      ∧ colls r.1 = colls st ∧ excluded r.1 = excluded st
      ∧ itemCollection r.1 = itemCollection st
  end.
Proof.
  intros Hroot r. subst r. unfold updateItem, resolveItem. rewrite Hroot.
  destruct (GetCanonicalPath (rootDrive driveID') _ _ _) as [rootP|e]; [|done].
  cbn. split; [done|]. split; [apply updatePath_lookup_id|].
  split; [apply updatePath_dom|done].
Qed.

(** X18: a run stops at the first item that has no usable parent
    reference (none at all, one without an id, or, for an item that is not
    deleted, one without a path) and is not the drive root.  The call
    returns the error "no parent reference"; what the items before it
    changed stays changed, and the items after it are not looked at. *)
Theorem X18_run_stops_at_malformed_item (driveID' driveName : string)
    (items1 items2 : list DriveItem) (item : DriveItem)
    (oldPaths : gmap string string) (invalidPrevDelta : bool)
    (st st1 : UpdateState) :
  itemRoot item = false →
  (itemParentReference item = None
   ∨ ∃ ref, itemParentReference item = Some ref
            ∧ (refId ref = None
               ∨ (itemDeleted item = false ∧ refPath ref = None))) →
  UpdateCollections driveID' driveName items1 oldPaths invalidPrevDelta st
    = (st1, Continue) →
  UpdateCollections driveID' driveName (items1 ++ item :: items2) oldPaths
    invalidPrevDelta st
  = (st1, Return errNoParentReference).
Proof.
  intros Hroot Hbad Hrun.
  rewrite (UpdateCollections_app _ _ _ _ _ _ _ _ Hrun). cbn [UpdateCollections].
  assert (updateItem driveID' driveName oldPaths invalidPrevDelta st1 item
          = (st1, Return errNoParentReference)) as ->; [|done].
  unfold updateItem, resolveItem. rewrite Hroot.
  destruct Hbad as [->|(ref & -> & [->|[-> ->]])]; [done|done|].
  by destruct (refId ref).
Qed.

End Events.

Lemma X15_folder_delete_event_witness :
  let r := @updateItem Sample.stringPaths "d1" "drive" Sample.knownWithRoot false
             Sample.incremental
             (Sample.deleted (Sample.mkFolder "A" "A" "root" "/drives/d1/root:")) in
  r.2 = Continue
  ∧ newPaths r.1 !! "A" = None
  ∧ @FullPath Sample.stringPaths <$> @CollectionMap Sample.stringPaths (colls r.1) !! "A"
    = Some None.
Proof.
  intros r.
  destruct (@X15_folder_delete_event Sample.stringPaths "d1" "drive"
              Sample.knownWithRoot false Sample.incremental
              (Sample.deleted (Sample.mkFolder "A" "A" "root" "/drives/d1/root:"))
              {| refId := Some "root"; refPath := Some "/drives/d1/root:" |}
              "root" eq_refl eq_refl eq_refl eq_refl eq_refl) as [_ Hknown].
  destruct (Hknown Sample.rootPath
              "t/onedrive/u/files/t/onedrive/u/files/drives/d1/root:"
              ltac:(by vm_compute) ltac:(by vm_compute)) as [_ Htomb].
  specialize (Htomb "t/onedrive/u/files/drives/d1/root:/A"
                "t/onedrive/u/files/drives/d1/root:/A"
                ltac:(by vm_compute) ltac:(by vm_compute)).
  subst r. rewrite Htomb. by vm_compute.
Defined.

Lemma X16_file_delete_event_witness :
  let r := @updateItem Sample.stringPaths "d1" "drive" Sample.knownPaths false
             Sample.seenInA (Sample.deleted Sample.changedFile) in
  r.2 = Continue
  ∧ @CollectionMap Sample.stringPaths (colls r.1)
    = @CollectionMap Sample.stringPaths (colls Sample.seenInA)
  ∧ @NumFiles Sample.stringPaths (colls r.1) = 1%Z.
Proof.
  intros r.
  destruct (@X16_file_delete_event Sample.stringPaths "d1" "drive"
              Sample.knownPaths false Sample.seenInA
              (Sample.deleted Sample.changedFile)
              {| refId := Some "A"; refPath := Some "/drives/d1/root:/A" |}
              "A" eq_refl eq_refl eq_refl eq_refl eq_refl eq_refl) as [_ Hknown].
  destruct (Hknown "t/onedrive/u/files/drives/d1/root:/A"
              "t/onedrive/u/files/t/onedrive/u/files/drives/d1/root:/A"
              ltac:(by vm_compute) ltac:(by vm_compute))
    as (Hflow & _ & _ & Hmap & _ & Hfiles & _).
  split; [exact Hflow|]. split; [exact Hmap|]. subst r. rewrite Hfiles.
  reflexivity.
Defined.

Lemma X17_root_event_witness :
  let r := @updateItem Sample.stringPaths "d1" "drive" Sample.knownPaths false
             Sample.incremental Sample.rootItem in
  r.2 = Continue ∧ newPaths r.1 !! "root" = Some Sample.rootPath.
Proof.
  intros r.
  pose proof (@X17_root_event Sample.stringPaths "d1" "drive" Sample.knownPaths
                false Sample.incremental Sample.rootItem eq_refl) as Hroot.
  cbv zeta in Hroot.
  assert (@GetCanonicalPath Sample.stringPaths (rootDrive "d1")
            (tenant (colls Sample.incremental))
            (resourceOwner (colls Sample.incremental))
            (source (colls Sample.incremental)) = Ok Sample.rootPath) as Hc
    by (by vm_compute).
  rewrite Hc in Hroot. destruct Hroot as (Hflow & Hpath & _). by split.
Defined.

Lemma X18_run_stops_at_malformed_item_witness :
  @UpdateCollections Sample.stringPaths "d1" "drive"
    ([Sample.renamedA] ++ Sample.orphan :: [Sample.changedFile])
    Sample.knownPaths false Sample.incremental
  = ((@UpdateCollections Sample.stringPaths "d1" "drive" [Sample.renamedA]
        Sample.knownPaths false Sample.incremental).1,
     Return errNoParentReference).
Proof.
  apply (@X18_run_stops_at_malformed_item Sample.stringPaths).
  - reflexivity.
  - left. reflexivity.
  - by vm_compute.
Defined.

(** ** [Get]: exclusions and nil paths *)
Section GetMore.
Context `{PathOps}.





End GetMore.

(** ** More on the details builder *)
Section FolderEntriesMore.
Import details.
Context `{BuilderOps}.

Lemma Dir_take (pb : PathBuilder) : Dir pb = take (length pb - 1) pb.
Proof.
  unfold Dir. rewrite removelast_firstn_len. f_equal. lia.
Qed.

Lemma take_Dir (pb : PathBuilder) (j : nat) :
  take (length (Dir pb) - j) (Dir pb) = take (length pb - S j) pb.
Proof.
  rewrite length_Dir, Dir_take, take_take. f_equal. lia.
Qed.

Lemma folderEntriesLoop_length fuel : ∀ parent lfs,
  length (folderEntriesLoop fuel parent lfs) = fuel `min` length parent.
Proof.
  induction fuel as [|fuel IH]; intros parent lfs; [done|].
  cbn [folderEntriesLoop]. unfold Elements. case_bool_decide as Hlen.
  - cbn [length]. rewrite IH, length_Dir. lia.
  - cbn [length]. lia.
Qed.

(** The location of the [i]-th entry: the location the loop started with,
    less its last [i] elements. *)
Lemma folderEntriesLoop_lookup fuel : ∀ parent lfs i e,
  folderEntriesLoop fuel parent lfs !! i = Some e →
  let A := take (length parent - i) parent in
  let L := (λ l : PathBuilder, take (length l - i) l) <$> lfs in
  i < length parent
  ∧ RepoRef e = BuilderString A
  ∧ ShortRef e = BuilderShortRef A
  ∧ ParentRef e = BuilderShortRef (take (length parent - S i) parent)
  ∧ Updated e = false
  ∧ LocationRef e = match L with Some l => BuilderString l | None => "" end
  ∧ Info e = {| Folder := Some {| folderItemType := FolderItem;
                                  DisplayName :=
                                    match L with
                                    | Some l =>
                                        if bool_decide (0 < length l)
                                        then LastElem l else LastElem A
                                    | None => LastElem A
                                    end;
                                  folderModified := zeroTime;
                                  folderSize := 0 |};
                Exchange := None; SharePoint := None; OneDrive := None |}.
Proof.
  induction fuel as [|fuel IH]; intros parent lfs i e; [done|].
  cbn [folderEntriesLoop]. unfold Elements. case_bool_decide as Hlen; [|done].
  destruct i as [|j].
  - cbn [lookup list_lookup]. intros [= <-]. cbv zeta. cbn [RepoRef ShortRef ParentRef Updated LocationRef Info].
    rewrite !Nat.sub_0_r, firstn_all. split; [done|]. split; [done|].
    split; [done|]. split; [by rewrite Dir_take|]. split; [done|].
    destruct lfs as [l|]; cbn [fmap option_fmap option_map].
    + by rewrite Nat.sub_0_r, firstn_all.
    + done.
  - cbn [lookup list_lookup]. intros Hj.
    apply IH in Hj. cbv zeta in Hj |- *.
    destruct Hj as (Hlt & Hrepo & Hshort & Hparent & Hupd & Hloc & Hinfo).
    rewrite length_Dir in Hlt. rewrite take_Dir in Hrepo, Hshort, Hinfo.
    assert (take (length (Dir parent) - S j) (Dir parent)
            = take (length parent - S (S j)) parent) as Hpp.
    { rewrite length_Dir, Dir_take, take_take. f_equal. lia. }
    rewrite Hpp in Hparent.
    split; [lia|]. split; [done|]. split; [done|]. split; [done|].
    split; [done|].
    destruct lfs as [l|]; cbn [fmap option_fmap option_map] in *;
      [rewrite take_Dir in Hloc, Hinfo|]; done.
Qed.

(** X21: [FolderEntriesForPath(parent, location)] gives one entry for each
    element of [parent], longest path first: entry [i] is the folder made
    of the first [length parent - i] elements, with the printed form and
    the short reference of that path, not updated, of size zero and with
    the zero time; its parent reference is the short reference of the path
    one element shorter, which is the short reference of entry [i + 1]
    when there is one. *)
Theorem X21_FolderEntriesForPath_chain (parent : PathBuilder)
    (location : option PathBuilder) :
  length (FolderEntriesForPath parent location) = length parent
  ∧ ∀ i e, FolderEntriesForPath parent location !! i = Some e →
      RepoRef e = BuilderString (take (length parent - i) parent)
      ∧ ShortRef e = BuilderShortRef (take (length parent - i) parent)
      ∧ ParentRef e = BuilderShortRef (take (length parent - S i) parent)
      ∧ Updated e = false
      ∧ (∃ fi, Folder (Info e) = Some fi ∧ folderItemType fi = FolderItem
               ∧ folderSize fi = 0%Z ∧ folderModified fi = zeroTime)
      ∧ (∀ e', FolderEntriesForPath parent location !! S i = Some e' →
               ParentRef e = ShortRef e').
Proof.
  unfold FolderEntriesForPath. split.
  - rewrite folderEntriesLoop_length. lia.
  - intros i e Hi.
    pose proof (folderEntriesLoop_lookup _ _ _ _ _ Hi) as Hent. cbv zeta in Hent.
    destruct Hent as (_ & Hrepo & Hshort & Hparent & Hupd & _ & Hinfo).
    split; [done|]. split; [done|]. split; [done|]. split; [done|]. split.
    + rewrite Hinfo. eexists. by split.
    + intros e' Hi'.
      pose proof (folderEntriesLoop_lookup _ _ _ _ _ Hi') as Hent. cbv zeta in Hent.
      destruct Hent as (_ & _ & Hshort' & _). by rewrite Hparent, Hshort'.
Qed.

Lemma PopFront4 (pb : PathBuilder) :
  PopFront (PopFront (PopFront (PopFront pb))) = drop 4 pb.
Proof. by destruct pb as [|? [|? [|? [|? ?]]]]. Qed.

(** X22: the location and display name of the entries.  Without a location
    every entry has an empty location reference and is displayed under the
    last element of its own path.  With one, the location less its first
    four elements is shortened by one element for each entry: entry [i]
    has the printed form of what is left as its location reference, and is
    displayed under the last element of what is left, or under the last
    element of its own path once nothing is left. *)
Theorem X22_FolderEntriesForPath_location (parent : PathBuilder)
    (location : option PathBuilder) (i : nat) (e : folderEntry) :
  FolderEntriesForPath parent location !! i = Some e →
  match location with
  | None =>
      LocationRef e = ""
      ∧ ∃ fi, Folder (Info e) = Some fi
              ∧ DisplayName fi = LastElem (take (length parent - i) parent)
  | Some loc =>
      let l := take (length (drop 4 loc) - i) (drop 4 loc) in
      LocationRef e = BuilderString l
      ∧ ∃ fi, Folder (Info e) = Some fi
              ∧ DisplayName fi
                = if bool_decide (0 < length l) then LastElem l
                  else LastElem (take (length parent - i) parent)
  end.
Proof.
  unfold FolderEntriesForPath. intros Hi.
  pose proof (folderEntriesLoop_lookup _ _ _ _ _ Hi) as Hent. cbv zeta in Hent.
  destruct Hent as (_ & _ & _ & _ & _ & Hloc & Hinfo).
  destruct location as [loc|]; cbn [locationRefOf fmap option_fmap option_map] in *.
  - rewrite PopFront4 in Hloc, Hinfo. cbv zeta. split; [done|].
    rewrite Hinfo. eexists. by split.
  - split; [done|]. rewrite Hinfo. eexists. by split.
Qed.

End FolderEntriesMore.

Lemma X22_FolderEntriesForPath_location_witness :
  let e := default (details.Build_folderEntry "" "" "" "" false
                      (details.Build_ItemInfo None None None None))
             (@details.FolderEntriesForPath Sample.slashRefs
                ["t"; "exchange"; "u"; "email"; "id1"; "id2"]
                (Some ["t"; "exchange"; "u"; "email"; "Inbox"; "Work"]) !! 1) in
  details.LocationRef e = "Inbox".
Proof.
  intros e.
  pose proof (@X22_FolderEntriesForPath_location Sample.slashRefs
                ["t"; "exchange"; "u"; "email"; "id1"; "id2"]
                (Some ["t"; "exchange"; "u"; "email"; "Inbox"; "Work"]) 1 e
                ltac:(by vm_compute)) as Hx.
  cbv zeta in Hx. destruct Hx as [Hloc _]. rewrite Hloc. by vm_compute.
Defined.

Section BuilderMore.
Import details.
Context `{BuilderOps}.

(** X23: [Details()] is not idempotent.  Every call appends one entry for
    each known folder, so after two calls the details hold the entries
    that were added, followed by the folder entries twice over (each time
    in the order the map happened to be gone through). *)
Theorem X23_Details_twice (b : Builder) :
  ∃ F1 F2,
    Entries (Details (Details b)) = Entries b ++ F1 ++ F2
    ∧ F1 ≡ₚ folderDetails <$> (map_to_list (knownFolders b)).*2
    ∧ F2 ≡ₚ folderDetails <$> (map_to_list (knownFolders b)).*2
    ∧ length (Entries (Details (Details b)))
      = length (Entries b) + 2 * base.size (knownFolders b).
Proof.
  exists (folderDetails <$> (map_to_list (knownFolders b)).*2),
         (folderDetails <$> (map_to_list (knownFolders b)).*2).
  assert (Entries (Details (Details b))
          = Entries b ++ (folderDetails <$> (map_to_list (knownFolders b)).*2)
              ++ (folderDetails <$> (map_to_list (knownFolders b)).*2)) as Heq.
  { rewrite Details_entries. cbn [knownFolders Details].
    rewrite Details_entries. by rewrite <- (assoc_L (++)). }
  split; [exact Heq|]. split; [done|]. split; [done|].
  rewrite Heq, !length_app, !length_fmap, length_map_to_list. lia.
Qed.

Lemma addFolderForItem_None info upd (l : list folderEntry) :
  foldl (addFolderForItem info upd) None l = None.
Proof. induction l as [|e l IH]; [done|]. exact IH. Qed.

Lemma addFolderForItem_Some info upd kf folder :
  well_keyed kf → is_Some (Folder (Info folder)) →
  ∃ folder2,
    addFolderForItem info upd (Some kf) folder
    = Some (<[ShortRef folder := folder2]> kf)
    ∧ ShortRef folder2 = ShortRef folder
    ∧ is_Some (Folder (Info folder2)).
Proof.
  intros Hwk [fi Hfi]. unfold addFolderForItem.
  destruct (kf !! ShortRef folder) as [existing|] eqn:Hex.
  - destruct (Hwk _ _ Hex) as [Href [fi' Hfi']].
    destruct (updateFolder_Some info upd existing fi' Hfi')
      as (e' & fi2 & -> & Hs & _ & Hf & _).
    exists e'. rewrite Hs, Href. split; [done|]. split; [done|by eexists].
  - destruct (updateFolder_Some info upd folder fi Hfi)
      as (e' & fi2 & -> & Hs & _ & Hf & _).
    exists e'. rewrite Hs. split; [done|]. split; [done|by eexists].
Qed.

Lemma well_keyed_insert kf (e : folderEntry) :
  well_keyed kf → is_Some (Folder (Info e)) →
  well_keyed (<[ShortRef e := e]> kf).
Proof.
  intros Hwk He r e' Hr. destruct (decide (r = ShortRef e)) as [->|Hne].
  - rewrite lookup_insert_eq in Hr. by injection Hr as <-.
  - rewrite lookup_insert_ne in Hr by done. by apply Hwk.
Qed.

Lemma addFolders_total info upd es : ∀ kf,
  well_keyed kf →
  Forall (λ e, is_Some (Folder (Info e))) es →
  ∃ kf', foldl (addFolderForItem info upd) (Some kf) es = Some kf'
         ∧ well_keyed kf'
         ∧ dom kf' = dom kf ∪ list_to_set (ShortRef <$> es).
Proof.
  induction es as [|e es IH]; intros kf Hwk Hall.
  - exists kf. split; [done|]. split; [done|].
    cbn. by rewrite (right_id_L ∅ (∪)).
  - apply Forall_cons in Hall as [He Hall]. cbn [foldl].
    destruct (addFolderForItem_Some info upd kf e Hwk He)
      as (e2 & -> & Hs & Hf).
    destruct (IH (<[ShortRef e := e2]> kf)) as (kf' & Hrun & Hwk' & Hdom);
      [|done|].
    { rewrite <- Hs. by apply well_keyed_insert. }
    exists kf'. split; [done|]. split; [done|].
    rewrite Hdom, dom_insert_L, fmap_cons. cbn [list_to_set].
    apply set_eq. intros r. rewrite !elem_of_union. tauto.
Qed.


(** X25: [AddFoldersForItem] panics when a folder it is given is not known
    yet and has no folder info: the update of the size writes through a
    nil pointer.  The folders before it in the list have been recorded by
    then. *)
Theorem X25_AddFoldersForItem_nil_info (b : Builder)
    (before after : list folderEntry) (folder : folderEntry)
    (itemInfo : ItemInfo) (updated : bool) :
  well_keyed (knownFolders b) →
  Forall (λ e, is_Some (Folder (Info e))) before →
  ShortRef folder ∉ dom (knownFolders b) →
  ShortRef folder ∉ ShortRef <$> before →
  Folder (Info folder) = None →
  AddFoldersForItem b (before ++ folder :: after) itemInfo updated = None.
Proof.
  intros Hwk Hall Hnew Hfresh Hnil. unfold AddFoldersForItem.
  destruct (addFolders_total itemInfo updated before _ Hwk Hall)
    as (kf' & Hrun & _ & Hdom).
  rewrite foldl_app, Hrun. cbn [foldl].
  assert (kf' !! ShortRef folder = None) as Hnone.
  { apply not_elem_of_dom. rewrite Hdom, elem_of_union, elem_of_list_to_set.
    tauto. }
  unfold addFolderForItem at 2. rewrite Hnone. unfold updateFolder.
  rewrite Hnil. by rewrite addFolderForItem_None.
Qed.


(** X27: two folders with the same short reference in one call are taken
    for one.  When neither is known yet, the folder recorded under the
    reference is the first of the two, and the item is counted twice in
    its size; the second folder leaves no entry of its own. *)
Theorem X27_AddFoldersForItem_collision (b : Builder)
    (f1 f2 : folderEntry) (fi : FolderInfo) (itemInfo : ItemInfo)
    (updated : bool) :
  ShortRef f1 = ShortRef f2 →
  knownFolders b !! ShortRef f1 = None →
  Folder (Info f1) = Some fi →
  ∃ b' e fi',
    AddFoldersForItem b [f1; f2] itemInfo updated = Some b'
    ∧ knownFolders b' = <[ShortRef f1 := e]> (knownFolders b)
    ∧ RepoRef e = RepoRef f1
    ∧ Folder (Info e) = Some fi'
    ∧ folderSize fi' = wrap64 (folderSize fi + size itemInfo + size itemInfo).
Proof.
  intros Href Hnew Hfi. unfold AddFoldersForItem. cbn [foldl].
  unfold addFolderForItem at 2. rewrite Hnew.
  destruct (updateFolder_Some itemInfo updated f1 fi Hfi)
    as (e1 & fi1 & -> & Hs1 & Hr1 & Hf1 & Hsize1 & _).
  unfold addFolderForItem. rewrite Hs1, <- Href, lookup_insert_eq.
  destruct (updateFolder_Some itemInfo updated e1 fi1 Hf1)
    as (e2 & fi2 & -> & Hs2 & Hr2 & Hf2 & Hsize2 & _).
  eexists _, e2, fi2. split; [done|]. cbn [knownFolders].
  rewrite Hs2, Hs1, insert_insert_eq. split; [done|].
  split; [congruence|]. split; [done|].
  by rewrite Hsize2, Hsize1, wrap64_add.
Qed.

End BuilderMore.


Lemma X25_AddFoldersForItem_nil_info_witness :
  details.AddFoldersForItem details.emptyBuilder
    ([Sample.folderNamed "t" "#t"] ++ Sample.bareFolder "#t/x" :: [])
    (Sample.mailInfo 42 100%Z) false = None.
Proof.
  apply X25_AddFoldersForItem_nil_info.
  - intros r e. vm_compute. intros [=].
  - repeat (apply Forall_cons_2; [by eexists|]). apply Forall_nil_2.
  - apply (bool_decide_unpack _). by vm_compute.
  - apply (bool_decide_unpack _). by vm_compute.
  - reflexivity.
Defined.

Lemma X27_AddFoldersForItem_collision_witness :
  ∃ b' e fi',
    details.AddFoldersForItem details.emptyBuilder
      [Sample.folderNamed "t/a" "#h"; Sample.folderNamed "t/b" "#h"]
      (Sample.mailInfo 42 100%Z) false = Some b'
    ∧ details.knownFolders b' = <["#h" := e]> ∅
    ∧ details.RepoRef e = "t/a"
    ∧ details.Folder (details.Info e) = Some fi'
    ∧ details.folderSize fi' = details.wrap64 (0 + 42 + 42).
Proof.
  apply (X27_AddFoldersForItem_collision details.emptyBuilder
           (Sample.folderNamed "t/a" "#h") (Sample.folderNamed "t/b" "#h")
           {| details.folderItemType := details.FolderItem;
              details.DisplayName := "t/a";
              details.folderModified := details.zeroTime;
              details.folderSize := 0 |}
           (Sample.mailInfo 42 100%Z) false); reflexivity.
Defined.

Section FirstSeen.
Context `{PathOps}.

(** X28: a file seen for the first time in a run.  When the item of a file
    that is not deleted reaches the switch, no collection holds the file
    yet, and the pass ends normally, the collection of its parent has the
    items it had and the file under its id; a parent without a collection
    gets one at the parent's path, with the merge flag of the call, and is
    counted as a container; no other collection changes; the file is
    indexed under its parent; and the paths are left alone. *)
Theorem X28_file_first_seen
    (driveID' driveName : string) (oldPaths : gmap string string)
    (invalidPrevDelta : bool) (st : UpdateState) (item : DriveItem)
    (collectionID : string) (collectionPath : Path) (ip : option Path) :
  resolveItem driveID' driveName oldPaths st item
    = Resolved collectionID collectionPath ip →
  itemFolder item || itemPackage item = false →
  itemFile item = true →
  itemDeleted item = false →
  itemCollection st !! itemId item = None →
  let r := updateItem driveID' driveName oldPaths invalidPrevDelta st item in
  r.2 = Continue →
  (∃ col',
     CollectionMap (colls r.1) !! collectionID = Some col'
     ∧ match CollectionMap (colls st) !! collectionID with
       | Some col =>
           col' = setDriveItems col (<[itemId item := item]> (driveItems col))
           ∧ NumContainers (colls r.1) = NumContainers (colls st)
       | None =>
           driveItems col' = {[ itemId item := item ]}
           ∧ FullPath col' = Some collectionPath
           ∧ doNotMergeItems col' = invalidPrevDelta
           ∧ NumContainers (colls r.1) = (NumContainers (colls st) + 1)%Z
       end)
  ∧ (∀ k, k ≠ collectionID →
          CollectionMap (colls r.1) !! k = CollectionMap (colls st) !! k)
  ∧ itemCollection r.1 = <[itemId item := collectionID]> (itemCollection st)
  ∧ newPaths r.1 = newPaths st.
Proof.
  intros Hres Hfolder Hfile Hdel Hindex r. subst r.
  unfold updateItem. rewrite Hres. unfold classifyItem. rewrite Hfolder, Hfile.
  unfold fileCase. cbv zeta. rewrite Hdel.
  destruct (negb invalidPrevDelta && itemFile item);
    cbn [colls setExcluded itemCollection newPaths];
    (destruct (ToOneDrivePath collectionPath) as [folders|]; [|by intros [=]]);
    (destruct (if decide (length folders = 0) then _ else _) as [prevP|e];
       [|by intros [=]]);
    cbn [setColls itemCollection colls setExcluded]; rewrite Hindex;
    (destruct (CollectionMap (colls st) !! collectionID) as [col|] eqn:Hcol);
    try rewrite Hcol;
    cbn [CollectionMap addCounts putCollection setCollectionMap];
    try rewrite lookup_insert_eq; unfold Add;
    cbn [fst snd colls setColls setItemCollection setExcluded itemCollection
         newPaths driveItems NewCollection];
    intros _;
    (split; [|split; [|done]]);
    [ eexists; split;
      [destruct (negb _); cbn; apply lookup_insert_eq
      |cbn; repeat split; try done; destruct (negb _); cbn; lia]
    | intros k Hk; destruct (negb _); cbn; by rewrite !lookup_insert_ne
    | eexists; split;
      [destruct (negb _); cbn; apply lookup_insert_eq
      |cbn; repeat split; try done; destruct (negb _); cbn; lia]
    | intros k Hk; destruct (negb _); cbn; by rewrite !lookup_insert_ne
    | eexists; split;
      [destruct (negb _); cbn; apply lookup_insert_eq
      |cbn; repeat split; try done; destruct (negb _); cbn; lia]
    | intros k Hk; destruct (negb _); cbn; by rewrite !lookup_insert_ne
    | eexists; split;
      [destruct (negb _); cbn; apply lookup_insert_eq
      |cbn; repeat split; try done; destruct (negb _); cbn; lia]
    | intros k Hk; destruct (negb _); cbn; by rewrite !lookup_insert_ne ].
Qed.

End FirstSeen.

Lemma X28_file_first_seen_witness :
  let r := @updateItem Sample.stringPaths "d1" "drive" Sample.knownPaths false
             Sample.incremental Sample.changedFile in
  r.2 = Continue
  ∧ (∃ col', @CollectionMap Sample.stringPaths (colls r.1) !! "A" = Some col'
             ∧ @driveItems Sample.stringPaths col' = {[ "f1" := Sample.changedFile ]})
  ∧ itemCollection r.1 = <[ "f1" := "A" ]> ∅.
Proof.
  intros r.
  assert (Hrun : r.2 = Continue) by (by vm_compute).
  split; [exact Hrun|].
  destruct (@X28_file_first_seen Sample.stringPaths "d1" "drive"
              Sample.knownPaths false Sample.incremental Sample.changedFile "A"
              "t/onedrive/u/files/drives/d1/root:/A"
              (Some "t/onedrive/u/files/drives/d1/root:/A/report")
              ltac:(by vm_compute) eq_refl eq_refl eq_refl ltac:(by vm_compute)
              Hrun)
    as ((col' & Hcol & Hnew) & _ & Hindex & _).
  split; [|exact Hindex].
  exists col'. split; [exact Hcol|].
  assert (@CollectionMap Sample.stringPaths (colls Sample.incremental) !! "A" = None)
    as Hnone by (by vm_compute).
  rewrite Hnone in Hnew. by destruct Hnew as [Hitems _].
Defined.

Section FolderFirstSeen.
Context `{PathOps}.

(** X29: a folder seen for the first time in a run.  When the item of a
    folder (or package) that is not deleted reaches the switch and the map
    has no collection under its id, a collection is put there whose full
    path is the folder's path, whose previous path is the one [oldPaths]
    has for the folder (none when it has none), and whose merge flag is
    the one of the call; for a OneDrive enumeration it holds the folder's
    own item, which is counted.  The folder is counted as a container, no
    other collection changes, and exclusions and the file index are left
    alone.  When the path [oldPaths] has for the folder does not parse, the
    run ends with an error and nothing is changed. *)
Theorem X29_folder_first_seen
    (driveID' driveName : string) (oldPaths : gmap string string)
    (invalidPrevDelta : bool) (st : UpdateState) (item : DriveItem)
    (collectionID : string) (collectionPath : Path) (ip : option Path) :
  resolveItem driveID' driveName oldPaths st item
    = Resolved collectionID collectionPath ip →
  itemFolder item || itemPackage item = true →
  itemDeleted item = false →
  CollectionMap (colls st) !! itemId item = None →
  let r := updateItem driveID' driveName oldPaths invalidPrevDelta st item in
  match previousPathOf oldPaths (itemId item) with
  | Err e => r = (st, Return e)
  | Ok prevP =>
      ∃ itemPath,
        ip = Some itemPath
        ∧ r.2 = Continue
        ∧ CollectionMap (colls r.1)
          = <[itemId item :=
                setDriveItems
                  (NewCollection (Some itemPath) prevP driveID'
                     (source (colls st)) invalidPrevDelta)
                  (if bool_decide (source (colls st) = OneDriveSource)
                   then {[ itemId item := item ]} else ∅)]>
              (CollectionMap (colls st))
        ∧ NumContainers (colls r.1) = (NumContainers (colls st) + 1)%Z
        ∧ NumItems (colls r.1)
          = (NumItems (colls st)
             + if bool_decide (source (colls st) = OneDriveSource) then 1 else 0)%Z
        ∧ NumFiles (colls r.1) = NumFiles (colls st)
        ∧ excluded r.1 = excluded st
        ∧ itemCollection r.1 = itemCollection st
  end.
Proof.
  intros Hres Hfolder Hdel Hnone r. subst r.
  destruct (resolveItem_Resolved _ _ _ _ _ _ _ _ Hres) as (_ & _ & Hip & _).
  rewrite Hdel in Hip. destruct Hip as (itemPath & -> & _).
  unfold updateItem. rewrite Hres. unfold classifyItem. rewrite Hfolder.
  unfold folderCase. cbv zeta.
  destruct (previousPathOf oldPaths (itemId item)) as [prevP|e]; [|done].
  rewrite Hdel. unfold updateCollectionPaths. rewrite Hnone.
  exists itemPath. split; [done|].
  case_bool_decide as Hsrc; cbn [negb].
  - cbn [CollectionMap addCounts putCollection setCollectionMap].
    rewrite lookup_insert_eq. unfold Add.
    cbn [driveItems NewCollection itemId]. rewrite lookup_empty.
    cbn. rewrite insert_insert_eq, insert_empty. repeat split; try done; lia.
  - cbn. rewrite insert_empty || idtac. repeat split; try done; lia.
Qed.

End FolderFirstSeen.

Lemma X29_folder_first_seen_witness :
  let r := @updateItem Sample.stringPaths "d1" "drive" Sample.knownPaths false
             Sample.incremental Sample.renamedA in
  r.2 = Continue
  ∧ @NumContainers Sample.stringPaths (colls r.1) = 1%Z
  ∧ @FullPath Sample.stringPaths <$> @CollectionMap Sample.stringPaths (colls r.1) !! "A"
    = Some (Some "t/onedrive/u/files/drives/d1/root:/A2").
Proof.
  intros r.
  pose proof (@X29_folder_first_seen Sample.stringPaths "d1" "drive"
                Sample.knownPaths false Sample.incremental Sample.renamedA "root"
                Sample.rootPath (Some "t/onedrive/u/files/drives/d1/root:/A2")
                ltac:(by vm_compute) eq_refl eq_refl ltac:(by vm_compute)) as Hx.
  cbv zeta in Hx.
  assert (@previousPathOf Sample.stringPaths Sample.knownPaths
            (itemId Sample.renamedA)
          = Ok (Some "t/onedrive/u/files/drives/d1/root:/A")) as Hprev
    by (by vm_compute).
  rewrite Hprev in Hx.
  destruct Hx as (itemPath & Hip & Hflow & Hmap & Hcont & _).
  injection Hip as <-.
  split; [exact Hflow|]. subst r. split; [by rewrite Hcont|].
  rewrite Hmap, lookup_insert_eq. reflexivity.
Defined.

Section GetExclusions.
Context `{GraphNames} `{PathOps}.



End GetExclusions.

